(** * EarlyStopping: the Landweber engine and the residual interpolation

    A shallow embedding of [src/EarlyStopping/landweber.py] (class
    [landweber]) and of [calculate_interpolated_residual] from
    [examples/plot_conjugate_gradients.py].

    Conventions of the embedding.
    - A numpy [float64] scalar is a rational [Q]; arithmetic is exact, and
      numeric equality is [Qeq] ([==]).  Rounding, [nan] and [inf] are outside
      the model.  Module [float64] repeats the iteration on binary64 numbers,
      for the statements that rounding decides.
    - A 1-D array is a [list Q]; a 2-D array carries its shape, so that
      [(0,p)] and [(p,0)] arrays are distinct.
    - A Python exception is a value of [exn]; fallible numpy calls return a
      [result].
    - A method of the class is a computation over the instance: it maps the
      attribute record to an outcome and the record as the call left it (the
      attributes assigned before an exception stay assigned). *)

From Stdlib Require Import List ZArith QArith Qround Lia Lqa Bool.
From Stdlib Require Import PrimFloat SpecFloat FloatOps.
Import ListNotations.

Local Open Scope Q_scope.

(** ** Python outcomes *)

Inductive exn : Type :=
| ValueError      (* numpy: operands could not be broadcast / shapes not aligned *)
| IndexError      (* index out of bounds *)
| AttributeError  (* attribute read before it was ever assigned *)
| TypeError       (* arithmetic on [None] *)
| OverflowError.  (* Python int too large to convert to C long *)

Inductive result (A : Type) : Type :=
| Ok (a : A)
| Raise (e : exn).

Arguments Ok {A} a.
Arguments Raise {A} e.

Definition rbind {A B : Type} (r : result A) (k : A -> result B) : result B :=
  match r with
  | Ok a => k a
  | Raise e => Raise e
  end.

(** ** The numpy operations the sources call *)

Module np.

Abbreviation vector := (list Q).

(** A 2-D array: [shape0] rows of [shape1] entries each, row major. *)
Record matrix : Type := mkMatrix {
  shape0 : nat;
  shape1 : nat;
  rows : list vector
}.

(** The shape fields describe the data. *)
Definition well_shaped (a : matrix) : bool :=
  (length (rows a) =? shape0 a)%nat
  && forallb (fun r => (length r =? shape1 a)%nat) (rows a).

(** [np.zeros(k)] *)
Definition zeros (k : nat) : vector := repeat 0 k.

(** [np.sum(v)] *)
Definition sum (v : vector) : Q := fold_right Qplus 0 v.

(** [v ** 2], element-wise *)
Definition square (v : vector) : vector := map (fun a => a ^ 2) v.

(** [np.mean(v)]; on the empty array numpy answers [nan], the model [0/0]. *)
Definition mean (v : vector) : Q := sum v / inject_Z (Z.of_nat (length v)).

(** [np.append(v, x)]: a new array, [v] itself is not written to. *)
Definition append (v : vector) (x : Q) : vector := v ++ [x].

(** Element-wise combination of two arrays of equal length. *)
Fixpoint zip_with (f : Q -> Q -> Q) (u v : vector) : vector :=
  match u, v with
  | a :: u', b :: v' => f a b :: zip_with f u' v'
  | _, _ => []
  end.

(** A binary ufunc on 1-D operands: equal lengths combine element-wise, a
    length-1 operand is broadcast, anything else is a [ValueError]. *)
Definition broadcast (f : Q -> Q -> Q) (u v : vector) : result vector :=
  if (length u =? length v)%nat then Ok (zip_with f u v)
  else if (length u =? 1)%nat then Ok (map (f (hd 0 u)) v)
  else if (length v =? 1)%nat then Ok (map (fun a => f a (hd 0 v)) u)
  else Raise ValueError.

Definition add : vector -> vector -> result vector := broadcast Qplus.
Definition subtract : vector -> vector -> result vector := broadcast Qminus.

(** Inner product of two 1-D arrays of equal length. *)
Definition inner (u v : vector) : Q := sum (zip_with Qmult u v).

(** [np.dot(a, x)] for a 2-D [a] and a 1-D [x]: the last axis of [a] must
    match the length of [x]. *)
Definition dot (a : matrix) (x : vector) : result vector :=
  if (shape1 a =? length x)%nat
  then Ok (map (fun r => inner r x) (rows a))
  else Raise ValueError.

(** Column [j] of the rows. *)
Definition column (j : nat) (rs : list vector) : vector :=
  map (fun r => nth j r 0) rs.

(** [np.transpose(a)] *)
Definition transpose (a : matrix) : matrix :=
  {| shape0 := shape1 a;
     shape1 := shape0 a;
     rows := map (fun j => column j (rows a)) (seq 0 (shape1 a)) |}.

(** [v[i]] for a Python integer [i]: negative indices count from the end.
    An index outside the array is an [IndexError], except that numpy fails
    earlier, with [OverflowError], on an index that fits an unsigned but not
    a signed 64-bit integer.  (An array has fewer than [2^63] elements.) *)
Definition getitem (v : vector) (i : Z) : result Q :=
  let len := Z.of_nat (length v) in
  if ((0 <=? i) && (i <? len))%Z then
    match nth_error v (Z.to_nat i) with
    | Some x => Ok x
    | None => Raise IndexError
    end
  else if ((- len <=? i) && (i <? 0))%Z then
    match nth_error v (Z.to_nat (len + i)) with
    | Some x => Ok x
    | None => Raise IndexError
    end
  else if ((2 ^ 63 <=? i) && (i <? 2 ^ 64))%Z then Raise OverflowError
  else Raise IndexError.

(** [np.eye(k)] *)
Definition eye (k : nat) : matrix :=
  {| shape0 := k;
     shape1 := k;
     rows := map (fun i => map (fun j => if (i =? j)%nat then 1 else 0)
                               (seq 0 k))
                 (seq 0 k) |}.

(** A scalar function applied to the elements of an index array in order;
    the first exception ends the evaluation. *)
Fixpoint each (f : Q -> result Q) (index : vector) : result vector :=
  match index with
  | [] => Ok []
  | t :: rest =>
      match f t with
      | Raise e => Raise e
      | Ok v =>
          match each f rest with
          | Raise e => Raise e
          | Ok vs => Ok (v :: vs)
          end
      end
  end.

(** [np.vectorize(f)] without [otypes], called on a 1-D array: numpy probes
    the first element for the output type and refuses an empty array. *)
Definition vectorize (f : Q -> result Q) (index : vector) : result vector :=
  match index with
  | [] => Raise ValueError
  | _ :: _ => each f index
  end.

End np.

(** ** The iteration on binary64 numbers *)

(** The arithmetic of [__init__] and [__landw_one_iteration] on [float64]
    arrays of matching shapes (an n x p matrix, n observations), with every
    operation rounded as IEEE 754 binary64 rounds it.  Sums run over the
    elements in order. *)
Module float64.

Abbreviation vector := (list float).

Record matrix : Type := mkMatrix {
  shape0 : nat;
  shape1 : nat;
  rows : list vector
}.

(** [np.zeros(k)] *)
Definition zeros (k : nat) : vector := repeat 0%float k.

(** [np.sum(v)] *)
Definition sum (v : vector) : float := fold_left PrimFloat.add v 0%float.

(** [v ** 2], element-wise *)
Definition square (v : vector) : vector := map (fun a => (a * a)%float) v.

Fixpoint zip_with (f : float -> float -> float) (u v : vector) : vector :=
  match u, v with
  | a :: u', b :: v' => f a b :: zip_with f u' v'
  | _, _ => []
  end.

Definition inner (u v : vector) : float := sum (zip_with PrimFloat.mul u v).

(** [np.dot(a, x)] *)
Definition dot (a : matrix) (x : vector) : vector :=
  map (fun r => inner r x) (rows a).

(** [np.transpose(a)] *)
Definition transpose (a : matrix) : matrix :=
  {| shape0 := shape1 a;
     shape1 := shape0 a;
     rows := map (fun j => map (fun r => nth j r 0%float) (rows a))
                 (seq 0 (shape1 a)) |}.

(** The attributes the iteration reads and writes. *)
Record landweber : Type := mkLandweber {
  input_matrix : matrix;
  output_variable : vector;
  iter : Z;
  landw_estimate : vector;
  residual_vector : vector;
  residuals : vector
}.

(** [landweber.__init__], without a true signal *)
Definition init (input_matrix : matrix) (output_variable : vector)
    : landweber :=
  {| input_matrix := input_matrix;
     output_variable := output_variable;
     iter := 0%Z;
     landw_estimate := zeros (shape1 input_matrix);
     residual_vector := output_variable;
     residuals := [sum (square output_variable)] |}.

(** [landweber.__landw_one_iteration] *)
Definition landw_one_iteration (self : landweber) : landweber :=
  let a := input_matrix self in
  let y := output_variable self in
  let estimate :=
    zip_with PrimFloat.add (landw_estimate self)
      (dot (transpose a)
         (zip_with PrimFloat.sub y (dot a (landw_estimate self)))) in
  let residual := zip_with PrimFloat.sub y (dot a estimate) in
  let new_residuals := sum (square residual) in
  {| input_matrix := a;
     output_variable := y;
     iter := iter self + 1;
     landw_estimate := estimate;
     residual_vector := residual;
     residuals := residuals self ++ [new_residuals] |}.

(** [landweber.landw] *)
Definition landw (iter_num : Z) (self : landweber) : landweber :=
  Nat.iter (Z.to_nat iter_num) landw_one_iteration self.

(** The exact value of a finite binary64 number. *)
Definition exact (x : float) : Q :=
  match Prim2SF x with
  | SpecFloat.S754_finite s m e =>
      (if s then -1 else 1) * inject_Z (Zpos m) * 2 ^ e
  | _ => 0
  end.

End float64.

(** ** The instance of class [landweber] *)

Record landweber : Type := mkLandweber {
  input_matrix : np.matrix;
  output_variable : np.vector;
  true_signal : option np.vector;         (* [None] when not supplied *)
  sample_size : nat;
  para_size : nat;
  iter : Z;
  landw_estimate : np.vector;
  residual_vector : np.vector;            (* [self.__residual_vector] *)
  residuals : np.vector;
  mse : option np.vector                  (* the attribute exists only when a
                                             true signal was given *)
}.

Definition set_landw_estimate (x : np.vector) (self : landweber) : landweber :=
  mkLandweber (input_matrix self) (output_variable self) (true_signal self)
    (sample_size self) (para_size self) (iter self) x
    (residual_vector self) (residuals self) (mse self).

Definition set_residual_vector (x : np.vector) (self : landweber) : landweber :=
  mkLandweber (input_matrix self) (output_variable self) (true_signal self)
    (sample_size self) (para_size self) (iter self) (landw_estimate self)
    x (residuals self) (mse self).

Definition set_residuals (x : np.vector) (self : landweber) : landweber :=
  mkLandweber (input_matrix self) (output_variable self) (true_signal self)
    (sample_size self) (para_size self) (iter self) (landw_estimate self)
    (residual_vector self) x (mse self).

Definition set_iter (x : Z) (self : landweber) : landweber :=
  mkLandweber (input_matrix self) (output_variable self) (true_signal self)
    (sample_size self) (para_size self) x (landw_estimate self)
    (residual_vector self) (residuals self) (mse self).

Definition set_mse (x : np.vector) (self : landweber) : landweber :=
  mkLandweber (input_matrix self) (output_variable self) (true_signal self)
    (sample_size self) (para_size self) (iter self) (landw_estimate self)
    (residual_vector self) (residuals self) (Some x).

(** ** Methods as computations over the instance *)

Definition method (A : Type) : Type := landweber -> result A * landweber.

Definition ret {A : Type} (a : A) : method A := fun self => (Ok a, self).

Definition bind {A B : Type} (m : method A) (k : A -> method B) : method B :=
  fun self =>
    match m self with
    | (Ok a, self') => k a self'
    | (Raise e, self') => (Raise e, self')
    end.

(** Read an attribute of [self]. *)
Definition attr {A : Type} (field : landweber -> A) : method A :=
  fun self => (Ok (field self), self).

(** Read an attribute that may not exist. *)
Definition attr_opt {A : Type} (field : landweber -> option A) : method A :=
  fun self =>
    match field self with
    | Some a => (Ok a, self)
    | None => (Raise AttributeError, self)
    end.

(** Assign an attribute of [self]. *)
Definition assign (update : landweber -> landweber) : method unit :=
  fun self => (Ok tt, update self).

(** Evaluate a numpy expression; an exception leaves [self] as it is. *)
Definition eval {A : Type} (r : result A) : method A :=
  fun self => (r, self).

Declare Scope method_scope.
Delimit Scope method_scope with method.
Notation "x <- m ;; k" := (bind m (fun x => k))
  (at level 61, m at next level, right associativity) : method_scope.
Notation "m ;; k" := (bind m (fun _ => k))
  (at level 61, right associativity) : method_scope.
Local Open Scope method_scope.

(** [for index in range(n): body] *)
Fixpoint for_range (n : nat) (body : method unit) : method unit :=
  match n with
  | O => ret tt
  | S k => body ;; for_range k body
  end.

(** [landweber.__init__]; the constructor has no failing statement for a 2-D
    [input_matrix]. *)
Definition init (input_matrix : np.matrix) (output_variable : np.vector)
    (true_signal : option np.vector) : result landweber :=
  let sample_size := np.shape0 input_matrix in
  let para_size := np.shape1 input_matrix in
  let residual_vector := output_variable in
  Ok {| input_matrix := input_matrix;
        output_variable := output_variable;
        true_signal := true_signal;
        sample_size := sample_size;
        para_size := para_size;
        iter := 0%Z;
        landw_estimate := np.zeros para_size;
        residual_vector := residual_vector;
        residuals := [np.sum (np.square residual_vector)];
        mse := match true_signal with
               | Some _ => Some []
               | None => None
               end |}.

(** [landweber.__update_strong_error] *)
Definition update_strong_error : method unit :=
  signal <- attr true_signal ;;
  estimate <- attr landw_estimate ;;
  deviation <- eval match signal with
                    | Some f => np.subtract f estimate
                    | None => Raise TypeError
                    end ;;
  let new_mse := np.mean (np.square deviation) in
  old <- attr_opt mse ;;
  assign (set_mse (np.append old new_mse)).

(** [landweber.__landw_one_iteration] *)
Definition landw_one_iteration : method unit :=
  a <- attr input_matrix ;;
  y <- attr output_variable ;;
  estimate <- attr landw_estimate ;;
  fitted <- eval (np.dot a estimate) ;;
  misfit <- eval (np.subtract y fitted) ;;
  gradient <- eval (np.dot (np.transpose a) misfit) ;;
  updated <- eval (np.add estimate gradient) ;;
  assign (set_landw_estimate updated) ;;
  estimate <- attr landw_estimate ;;
  fitted <- eval (np.dot a estimate) ;;
  residual <- eval (np.subtract y fitted) ;;
  assign (set_residual_vector residual) ;;
  let new_residuals := np.sum (np.square residual) in
  old <- attr residuals ;;
  assign (set_residuals (np.append old new_residuals)) ;;
  count <- attr iter ;;
  assign (set_iter (count + 1)%Z) ;;
  signal <- attr true_signal ;;
  match signal with
  | Some _ => update_strong_error
  | None => ret tt
  end.

(** [landweber.landw]; [range(iter_num)] is empty for [iter_num <= 0]. *)
Definition landw (iter_num : Z) : method unit :=
  for_range (Z.to_nat iter_num) landw_one_iteration.

(** ** The interpolation of the example script *)

(** [calculate_interpolated_residual(residuals, index)]; [int(np.floor(.))]
    and [int(np.ceil(.))] are [Qfloor] and [Qceiling]. *)
Definition calculate_interpolated_residual (residuals : np.vector) (index : Q)
    : result Q :=
  let index_ceil := Qceiling index in
  let index_floor := Qfloor index in
  let alpha := index - inject_Z index_floor in
  rbind (np.getitem residuals index_floor) (fun at_floor =>
  rbind (np.getitem residuals index_ceil) (fun at_ceil =>
  Ok ((1 - alpha) ^ 2 * at_floor + (1 - (1 - alpha) ^ 2) * at_ceil))).

(** What a call can reach: the arrays of the interpreter, by address, and an
    engine. *)
Record world : Type := mkWorld {
  arrays : nat -> np.vector;
  engine : landweber
}.

(** Statements that may read and write the world. *)
Definition action (A : Type) : Type := world -> result A * world.

Definition action_ret {A : Type} (a : A) : action A := fun w => (Ok a, w).

Definition action_bind {A B : Type} (m : action A) (k : A -> action B)
    : action B :=
  fun w =>
    match m w with
    | (Ok a, w') => k a w'
    | (Raise e, w') => (Raise e, w')
    end.

(** [residuals[i]] for the array at address [residuals]. *)
Definition load_item (residuals : nat) (i : Z) : action Q :=
  fun w => (np.getitem (arrays w residuals) i, w).

(** The body of [calculate_interpolated_residual] as the interpreter runs
    it, the argument [residuals] being a reference to an array. *)
Definition calculate_interpolated_residual_call (residuals : nat) (index : Q)
    : action Q :=
  let index_ceil := Qceiling index in
  let index_floor := Qfloor index in
  let alpha := index - inject_Z index_floor in
  action_bind (load_item residuals index_floor) (fun at_floor =>
  action_bind (load_item residuals index_ceil) (fun at_ceil =>
  action_ret ((1 - alpha) ^ 2 * at_floor + (1 - (1 - alpha) ^ 2) * at_ceil))).

(** The name as the script rebinds it:
    [np.vectorize(calculate_interpolated_residual, excluded=["residuals"])],
    called with an array of indices. *)
Definition calculate_interpolated_residual_vectorized (residuals : np.vector)
    (index : np.vector) : result np.vector :=
  np.vectorize (calculate_interpolated_residual residuals) index.

(** ** Vocabulary of the statements *)

(** The shapes the class documents: an n x p matrix, an n-vector of
    observations and, when given, a p-vector as true signal. *)
Definition shapes_agree (a : np.matrix) (y : np.vector)
    (f : option np.vector) : bool :=
  np.well_shaped a
  && (length y =? np.shape0 a)%nat
  && match f with
     | Some t => (length t =? np.shape1 a)%nat
     | None => true
     end.

(** An instance whose attributes have the documented shapes. *)
Definition consistent (self : landweber) : bool :=
  shapes_agree (input_matrix self) (output_variable self) (true_signal self)
  && (length (landw_estimate self) =? np.shape1 (input_matrix self))%nat
  && match true_signal self, mse self with
     | Some _, None => false
     | _, _ => true
     end.

(** The instances a caller can hold: the constructed one, and whatever a call
    of [landw] leaves behind, whether it returned or raised. *)
Inductive reachable (a : np.matrix) (y : np.vector) (f : option np.vector)
    : landweber -> Prop :=
| reach_init : forall self,
    init a y f = Ok self -> reachable a y f self
| reach_landw : forall self iter_num out self',
    reachable a y f self ->
    landw iter_num self = (out, self') ->
    reachable a y f self'.

(** Sum of [f 0 .. f (n-1)]. *)
Definition big_sum (n : nat) (f : nat -> Q) : Q :=
  fold_right Qplus 0 (map f (seq 0 n)).

(** Entry [(i, j)] of a matrix, and coordinate [i] of a vector. *)
Definition entry (a : np.matrix) (i j : nat) : Q :=
  nth j (nth i (np.rows a) []) 0.

Definition coord (v : np.vector) (i : nat) : Q := nth i v 0.

(** Squared Euclidean norm. *)
Definition squared_norm (v : np.vector) : Q :=
  big_sum (length v) (fun i => coord v i ^ 2).

(** The gradient rule of the specification, coordinate by coordinate:
    coordinate [j] of [x + At (y - A x)] for an n x p matrix [A]. *)
Definition gradient_rule (a : np.matrix) (y x : np.vector) : np.vector :=
  map (fun j =>
         coord x j
         + big_sum (np.shape0 a) (fun i =>
             entry a i j
             * (coord y i
                - big_sum (np.shape1 a) (fun k => entry a i k * coord x k))))
      (seq 0 (np.shape1 a)).

(** Mean squared deviation between two p-vectors. *)
Definition mean_squared_deviation (f x : np.vector) : Q :=
  big_sum (length x) (fun j => (coord f j - coord x j) ^ 2)
  / inject_Z (Z.of_nat (length x)).

(** [(I - At A) x], coordinate by coordinate. *)
Definition normal_residual (a : np.matrix) (x : np.vector) : np.vector :=
  map (fun j =>
         coord x j
         - big_sum (np.shape0 a) (fun i =>
             entry a i j
             * big_sum (np.shape1 a) (fun k => entry a i k * coord x k)))
      (seq 0 (np.shape1 a)).

(** The precondition of the engine: [I - At A] does not increase the norm of
    any parameter vector. *)
Definition contractive (a : np.matrix) : Prop :=
  forall x, length x = np.shape1 a ->
    squared_norm (normal_residual a x) <= squared_norm x.

(** A trace that never goes up. *)
Definition non_increasing (l : list Q) : Prop :=
  forall m r r', nth_error l m = Some r -> nth_error l (S m) = Some r' ->
    r' <= r.

(** A mismatch that numpy does not broadcast away: the observation length
    differs from the row count and from 1, or the true signal length differs
    from the column count while neither is 1. *)
Definition unbroadcastable_mismatch (a : np.matrix) (y : np.vector)
    (f : option np.vector) : Prop :=
  length y <> np.shape0 a /\ length y <> 1%nat
  \/ exists t, f = Some t
               /\ length t <> np.shape1 a
               /\ length t <> 1%nat
               /\ np.shape1 a <> 1%nat.

(** ** The engine's arithmetic on matching shapes *)

(** The product [a x] and the two element-wise operations, on operands of
    matching shapes. *)
Definition mat_vec (a : np.matrix) (x : np.vector) : np.vector :=
  map (fun r => np.inner r x) (np.rows a).

Definition vadd : np.vector -> np.vector -> np.vector := np.zip_with Qplus.
Definition vsub : np.vector -> np.vector -> np.vector := np.zip_with Qminus.

(** The estimate after one iteration, as the engine computes it. *)
Definition next_estimate (a : np.matrix) (y x : np.vector) : np.vector :=
  vadd x (mat_vec (np.transpose a) (vsub y (mat_vec a x))).

(** The residual vector [y - a x]. *)
Definition residual_of (a : np.matrix) (y x : np.vector) : np.vector :=
  vsub y (mat_vec a x).

(** ** Auxiliary notions of the proofs *)

(** The part of an iteration before the risk update (source lines 110-116),
    on an instance of matching shapes. *)
Definition advanced (self : landweber) : landweber :=
  let a := input_matrix self in
  let y := output_variable self in
  let x' := next_estimate a y (landw_estimate self) in
  let r' := residual_of a y x' in
  set_iter (iter self + 1)%Z
    (set_residuals (np.append (residuals self) (np.sum (np.square r')))
       (set_residual_vector r' (set_landw_estimate x' self))).

(** The risk update on an instance, as an outcome and a new instance. *)
Definition risk_update (self : landweber) : result unit * landweber :=
  match true_signal self with
  | None => (Ok tt, self)
  | Some f =>
      match np.subtract f (landw_estimate self) with
      | Raise e => (Raise e, self)
      | Ok d =>
          match mse self with
          | None => (Raise AttributeError, self)
          | Some old =>
              (Ok tt, set_mse (np.append old (np.mean (np.square d))) self)
          end
      end
  end.

(** The attributes bound at construction. *)
Definition same_model (self self' : landweber) : Prop :=
  input_matrix self' = input_matrix self
  /\ output_variable self' = output_variable self
  /\ true_signal self' = true_signal self
  /\ sample_size self' = sample_size self
  /\ para_size self' = para_size self.

(** The risk trace was left alone or got one more entry. *)
Definition mse_grew_by_at_most_one (self self' : landweber) : Prop :=
  mse self' = mse self
  \/ exists old w, mse self = Some old /\ mse self' = Some (old ++ [w]).

(** Sum of [f] over a list of indices. *)
Definition sum_over (l : list nat) (f : nat -> Q) : Q :=
  fold_right Qplus 0 (map f l).

(** [A w] at row [i] and [At u] at column [j], for a matrix given by its
    entries. *)
Definition image (p : nat) (A : nat -> nat -> Q) (w : nat -> Q) (i : nat) : Q :=
  sum_over (seq 0 p) (fun k => A i k * w k).

Definition back (n : nat) (A : nat -> nat -> Q) (u : nat -> Q) (j : nat) : Q :=
  sum_over (seq 0 n) (fun i => A i j * u i).

(** The residual [y - A x], the gradient [At (y - A x)] and the estimate
    after one step, on coordinate functions. *)
Definition fn_residual (p : nat) (A : nat -> nat -> Q) (y x : nat -> Q)
    (i : nat) : Q :=
  y i - image p A x i.

Definition fn_gradient (n p : nat) (A : nat -> nat -> Q) (y x : nat -> Q)
    (j : nat) : Q :=
  back n A (fn_residual p A y x) j.

Definition fn_next (n p : nat) (A : nat -> nat -> Q) (y x : nat -> Q)
    (j : nat) : Q :=
  x j + fn_gradient n p A y x j.

(** The instance left by a successful iteration. *)
Definition iterated (self : landweber) : landweber :=
  match true_signal self, mse self with
  | Some f, Some old =>
      set_mse
        (old ++ [mean_squared_deviation f
                   (next_estimate (input_matrix self) (output_variable self)
                      (landw_estimate self))])
        (advanced self)
  | _, _ => advanced self
  end.

(** What every reachable instance keeps from its construction. *)
Definition built_from (a : np.matrix) (y : np.vector)
    (f : option np.vector) (self : landweber) : Prop :=
  input_matrix self = a /\ output_variable self = y /\ true_signal self = f.

(** The last entry of the trace is the squared residual norm of the current
    estimate, and the trace has never gone up. *)
Definition tracks_residual (a : np.matrix) (y : np.vector)
    (self : landweber) : Prop :=
  built_from a y (true_signal self) self
  /\ length (landw_estimate self) = np.shape1 a
  /\ non_increasing (residuals self)
  /\ exists front last,
       residuals self = front ++ [last]
       /\ last == squared_norm (residual_of a y (landw_estimate self)).

(** ** A small engine to run *)

(** A 2 x 2 diagonal design with singular values 1/2 and 1, observations
    [(1, 2)] and true signal [(2, 2)]. *)
Definition example_matrix : np.matrix :=
  np.mkMatrix 2 2 [[1 # 2; 0]; [0; 1]].

Definition example_observation : np.vector := [1; 2].

Definition example_signal : np.vector := [2; 2].

Definition example_engine : landweber :=
  {| input_matrix := example_matrix;
     output_variable := example_observation;
     true_signal := Some example_signal;
     sample_size := 2;
     para_size := 2;
     iter := 0%Z;
     landw_estimate := [0; 0];
     residual_vector := example_observation;
     residuals := [np.sum (np.square example_observation)];
     mse := Some [] |}.

(** ** One iteration on arbitrary shapes *)

(** The right-hand side of source line 110: the new estimate, or the
    exception numpy raises on the way. *)
Definition gradient_update (a : np.matrix) (y x : np.vector)
    : result np.vector :=
  rbind (np.dot a x) (fun fitted =>
  rbind (np.subtract y fitted) (fun misfit =>
  rbind (np.dot (np.transpose a) misfit) (fun gradient =>
  np.add x gradient))).

(** The right-hand side of source line 113. *)
Definition residual_update (a : np.matrix) (y x : np.vector)
    : result np.vector :=
  rbind (np.dot a x) (fun fitted => np.subtract y fitted).

(** The instance after source lines 110-116 with new estimate [x'] and new
    residual vector [r']. *)
Definition advanced_to (x' r' : np.vector) (self : landweber) : landweber :=
  set_iter (iter self + 1)%Z
    (set_residuals (np.append (residuals self) (np.sum (np.square r')))
       (set_residual_vector r' (set_landw_estimate x' self))).


(** Two instances that differ at most in the observation vector, the stored
    residual vector and the iteration-0 entry of the residual trace. *)
Definition same_run (s1 s2 : landweber) : Prop :=
  input_matrix s1 = input_matrix s2
  /\ true_signal s1 = true_signal s2
  /\ iter s1 = iter s2
  /\ landw_estimate s1 = landw_estimate s2
  /\ mse s1 = mse s2
  /\ tl (residuals s1) = tl (residuals s2)
  /\ length (residuals s1) = length (residuals s2).

(** On matching shapes of matrix and observations: the stored residual
    vector is [y - a x] for the current estimate [x], and the last trace
    entry is its squared norm. *)
Definition residual_in_step (a : np.matrix) (y : np.vector)
    (self : landweber) : Prop :=
  built_from a y (true_signal self) self
  /\ length (landw_estimate self) = np.shape1 a
  /\ length (residual_vector self) = np.shape0 a
  /\ (forall i, (i < np.shape0 a)%nat ->
        coord (residual_vector self) i
        == coord y i
           - big_sum (np.shape1 a)
               (fun k => entry a i k * coord (landw_estimate self) k))
  /\ exists front,
       residuals self
       = front ++ [np.sum (np.square (residual_vector self))].

(** ** More engines to run *)

(** The identity design on two coordinates with observations [(3, 5)]. *)
Definition identity_engine : landweber :=
  {| input_matrix := np.eye 2;
     output_variable := [3; 5];
     true_signal := None;
     sample_size := 2;
     para_size := 2;
     iter := 0%Z;
     landw_estimate := [0; 0];
     residual_vector := [3; 5];
     residuals := [np.sum (np.square [3; 5])];
     mse := None |}.

(** A 2 x 1 design, once with the single observation [1] and once with the
    observation vector [(1, 1)]. *)
Definition column_matrix : np.matrix := np.mkMatrix 2 1 [[1 # 2]; [1]].

Definition scalar_observation_engine : landweber :=
  {| input_matrix := column_matrix;
     output_variable := [1];
     true_signal := None;
     sample_size := 2;
     para_size := 1;
     iter := 0%Z;
     landw_estimate := [0];
     residual_vector := [1];
     residuals := [np.sum (np.square [1])];
     mse := None |}.

Definition constant_observation_engine : landweber :=
  {| input_matrix := column_matrix;
     output_variable := [1; 1];
     true_signal := None;
     sample_size := 2;
     para_size := 1;
     iter := 0%Z;
     landw_estimate := [0];
     residual_vector := [1; 1];
     residuals := [np.sum (np.square [1; 1])];
     mse := None |}.

(** The small engine with three observations for its two rows, and with a
    true signal of three coordinates for its two columns. *)
Definition wrong_observation_engine : landweber :=
  {| input_matrix := example_matrix;
     output_variable := [1; 2; 3];
     true_signal := None;
     sample_size := 2;
     para_size := 2;
     iter := 0%Z;
     landw_estimate := [0; 0];
     residual_vector := [1; 2; 3];
     residuals := [np.sum (np.square [1; 2; 3])];
     mse := None |}.

Definition wrong_signal_engine : landweber :=
  {| input_matrix := example_matrix;
     output_variable := example_observation;
     true_signal := Some [1; 2; 3];
     sample_size := 2;
     para_size := 2;
     iter := 0%Z;
     landw_estimate := [0; 0];
     residual_vector := example_observation;
     residuals := [np.sum (np.square example_observation)];
     mse := Some [] |}.

(** A 2 x 1 design with singular value sqrt(65)/8, whose entries and
    observations are binary64 numbers, as rationals and as floats. *)
Definition tall_matrix : np.matrix := np.mkMatrix 2 1 [[1 # 8]; [1]].

Definition tall_matrix_binary64 : float64.matrix :=
  float64.mkMatrix 2 1 [[0.125%float]; [1%float]].

Definition tall_engine_binary64 : float64.landweber :=
  float64.init tall_matrix_binary64 [2%float; 3%float].

(** A world whose array 0 is the trace [4, 2, 1]. *)
Definition example_world : world :=
  {| arrays := fun _ => [4; 2; 1]; engine := example_engine |}.

(** The small engine with a single observation and a true signal of three
    coordinates. *)
Definition doubly_wrong_engine : landweber :=
  {| input_matrix := example_matrix;
     output_variable := [1];
     true_signal := Some [1; 2; 3];
     sample_size := 2;
     para_size := 2;
     iter := 0%Z;
     landw_estimate := [0; 0];
     residual_vector := [1];
     residuals := [np.sum (np.square [1])];
     mse := Some [] |}.

(** * Properties *)

(** ** Shapes of the numpy results *)

Section Shapes.

Lemma length_zip_with (f : Q -> Q -> Q) (u v : np.vector) :
  length (np.zip_with f u v) = Nat.min (length u) (length v).
Proof.
  revert v; induction u as [|a u IH]; intros [|b v]; simpl; auto.
Qed.

Lemma broadcast_same_length (f : Q -> Q -> Q) (u v : np.vector) :
  length u = length v -> np.broadcast f u v = Ok (np.zip_with f u v).
Proof.
  intros H; unfold np.broadcast.
  now rewrite (proj2 (Nat.eqb_eq _ _) H).
Qed.

Lemma broadcast_mismatch (f : Q -> Q -> Q) (u v : np.vector) :
  length u <> length v -> length u <> 1%nat -> length v <> 1%nat ->
  np.broadcast f u v = Raise ValueError.
Proof.
  intros H H1 H2; unfold np.broadcast.
  rewrite (proj2 (Nat.eqb_neq _ _) H), (proj2 (Nat.eqb_neq _ _) H1),
    (proj2 (Nat.eqb_neq _ _) H2); reflexivity.
Qed.

Lemma dot_aligned (a : np.matrix) (x : np.vector) :
  np.shape1 a = length x -> np.dot a x = Ok (mat_vec a x).
Proof.
  intros H; unfold np.dot.
  now rewrite (proj2 (Nat.eqb_eq _ _) H).
Qed.

Lemma dot_misaligned (a : np.matrix) (x : np.vector) :
  np.shape1 a <> length x -> np.dot a x = Raise ValueError.
Proof.
  intros H; unfold np.dot.
  now rewrite (proj2 (Nat.eqb_neq _ _) H).
Qed.

Lemma length_mat_vec (a : np.matrix) (x : np.vector) :
  length (mat_vec a x) = length (np.rows a).
Proof. unfold mat_vec; apply length_map. Qed.

Lemma length_rows_transpose (a : np.matrix) :
  length (np.rows (np.transpose a)) = np.shape1 a.
Proof. simpl; now rewrite length_map, length_seq. Qed.

Lemma well_shaped_rows (a : np.matrix) :
  np.well_shaped a = true ->
  length (np.rows a) = np.shape0 a
  /\ Forall (fun r => length r = np.shape1 a) (np.rows a).
Proof.
  unfold np.well_shaped; intros H.
  apply andb_true_iff in H as [H1 H2].
  apply Nat.eqb_eq in H1. split; [exact H1|].
  apply Forall_forall; intros r Hr.
  rewrite forallb_forall in H2. now apply Nat.eqb_eq, H2.
Qed.

Lemma length_next_estimate (a : np.matrix) (y x : np.vector) :
  length x = np.shape1 a -> length (next_estimate a y x) = np.shape1 a.
Proof.
  intros Hx; unfold next_estimate, vadd.
  rewrite length_zip_with, length_mat_vec, length_rows_transpose; lia.
Qed.

Lemma length_residual_of (a : np.matrix) (y x : np.vector) :
  length y = length (np.rows a) -> length (residual_of a y x) = length y.
Proof.
  intros Hy; unfold residual_of, vsub.
  rewrite length_zip_with, length_mat_vec; lia.
Qed.

End Shapes.

(** ** What one iteration does to the instance *)

(** Read the attributes of an instance that was just assigned to. *)
Ltac project :=
  unfold set_iter, set_residuals, set_residual_vector, set_landw_estimate,
    set_mse;
  cbn [fst snd input_matrix output_variable true_signal sample_size para_size
       iter landw_estimate residual_vector residuals mse].

(** Open a method body into the numpy calls it makes. *)
Ltac run_method :=
  cbv [landw_one_iteration update_strong_error bind attr attr_opt eval assign
       ret];
  project.

(** Case analysis on the outcome of the next numpy call or attribute read. *)
Ltac split_result :=
  match goal with
  | |- context [match ?r with Ok _ => _ | Raise _ => _ end] =>
      destruct r eqn:?
  | |- context [match ?o with Some _ => _ | None => _ end] =>
      destruct o eqn:?
  end;
  project.

Lemma iteration_on_matching_shapes (self : landweber) :
  np.well_shaped (input_matrix self) = true ->
  length (output_variable self) = np.shape0 (input_matrix self) ->
  length (landw_estimate self) = np.shape1 (input_matrix self) ->
  landw_one_iteration self = risk_update (advanced self).
Proof.
  intros Hw Hy Hx.
  destruct (well_shaped_rows _ Hw) as [Hrows _].
  set (a := input_matrix self) in *.
  set (y := output_variable self) in *.
  set (x := landw_estimate self) in *.
  assert (E1 : np.dot a x = Ok (mat_vec a x)) by (apply dot_aligned; auto).
  assert (E2 : np.subtract y (mat_vec a x) = Ok (vsub y (mat_vec a x))).
  { apply broadcast_same_length. rewrite length_mat_vec; lia. }
  assert (E3 : np.dot (np.transpose a) (vsub y (mat_vec a x))
               = Ok (mat_vec (np.transpose a) (vsub y (mat_vec a x)))).
  { apply dot_aligned. unfold vsub; simpl.
    rewrite length_zip_with, length_mat_vec; lia. }
  assert (E4 : np.add x (mat_vec (np.transpose a) (vsub y (mat_vec a x)))
               = Ok (next_estimate a y x)).
  { apply broadcast_same_length.
    rewrite length_mat_vec, length_rows_transpose; lia. }
  assert (Hx' : length (next_estimate a y x) = np.shape1 a)
    by now apply length_next_estimate.
  assert (E5 : np.dot a (next_estimate a y x)
               = Ok (mat_vec a (next_estimate a y x)))
    by (apply dot_aligned; auto).
  assert (E6 : np.subtract y (mat_vec a (next_estimate a y x))
               = Ok (residual_of a y (next_estimate a y x))).
  { apply broadcast_same_length. rewrite length_mat_vec; lia. }
  unfold risk_update, advanced.
  run_method. fold a y x.
  rewrite E1, E2, E3, E4. project. rewrite E5, E6. project. fold a y x.
  destruct (true_signal self) as [f|]; project; [|reflexivity].
  destruct (np.subtract f (next_estimate a y x)); [|reflexivity].
  destruct (mse self); reflexivity.
Qed.

(** Whatever the shapes, an iteration either raises before the traces are
    touched, or appends one residual and counts one iteration. *)
Lemma iteration_effect (self self' : landweber) (out : result unit) :
  landw_one_iteration self = (out, self') ->
  same_model self self'
  /\ ((exists e, out = Raise e)
      /\ residuals self' = residuals self
      /\ iter self' = iter self
      /\ mse self' = mse self
      \/ (exists v, residuals self' = residuals self ++ [v])
         /\ iter self' = (iter self + 1)%Z
         /\ mse_grew_by_at_most_one self self').
Proof.
  unfold same_model, mse_grew_by_at_most_one.
  run_method. repeat split_result; intros [= <- <-]; project;
    (split; [repeat split; reflexivity|]);
    try (left; repeat split; eauto; fail);
    right; unfold np.append; repeat split; eauto.
Qed.

(** ** Loops *)

Lemma for_range_plus (m n : nat) (body : method unit) (self : landweber) :
  for_range (m + n) body self = (for_range m body ;; for_range n body) self.
Proof.
  revert self; induction m as [|m IH]; intros self; simpl.
  - reflexivity.
  - unfold bind in *.
    destruct (body self) as [[[]|e] s1]; [|reflexivity].
    apply IH.
Qed.

Lemma landw_one (self : landweber) :
  landw 1 self = landw_one_iteration self.
Proof.
  unfold landw; simpl. unfold bind, ret.
  destruct (landw_one_iteration self) as [[[]|e] s1]; reflexivity.
Qed.

(** ** Invariants of the traces *)

(** A property kept by every iteration is kept by every call of [landw]. *)
Lemma landw_preserves (P : landweber -> Prop) :
  (forall self out self',
      P self -> landw_one_iteration self = (out, self') -> P self') ->
  forall iter_num self out self',
    P self -> landw iter_num self = (out, self') -> P self'.
Proof.
  intros Hstep iter_num; unfold landw.
  induction (Z.to_nat iter_num) as [|n IH]; intros self out self' HP; simpl.
  - intros [= <- <-]; exact HP.
  - unfold bind.
    destruct (landw_one_iteration self) as [[[]|e] s1] eqn:E.
    + intros H. eapply IH; [|exact H]. eapply Hstep; eauto.
    + intros [= <- <-]. eapply Hstep; eauto.
Qed.

(** A property of the constructed instance kept by every iteration holds of
    every instance a caller can hold. *)
Lemma reachable_ind_iteration (a : np.matrix) (y : np.vector)
    (f : option np.vector) (P : landweber -> Prop) :
  (forall self, init a y f = Ok self -> P self) ->
  (forall self out self',
      P self -> landw_one_iteration self = (out, self') -> P self') ->
  forall self, reachable a y f self -> P self.
Proof.
  intros Hinit Hstep self H.
  induction H as [self H|self k out self' _ IH H].
  - now apply Hinit.
  - eapply landw_preserves; eauto.
Qed.

(** ** Arrays, coordinate by coordinate *)

Section Coordinates.

Lemma coord_map_seq (g : nat -> Q) (n i : nat) :
  (i < n)%nat -> coord (map g (seq 0 n)) i = g i.
Proof.
  intros H; unfold coord.
  rewrite (nth_indep _ 0 (g 0%nat)) by (now rewrite length_map, length_seq).
  rewrite map_nth, seq_nth by exact H. reflexivity.
Qed.

Lemma map_coord_seq (v : np.vector) :
  map (coord v) (seq 0 (length v)) = v.
Proof.
  apply (nth_ext _ _ 0 0).
  - now rewrite length_map, length_seq.
  - intros i Hi. rewrite length_map, length_seq in Hi.
    now apply coord_map_seq.
Qed.

Lemma coord_zip_with (f : Q -> Q -> Q) (u v : np.vector) (i : nat) :
  (i < length u)%nat -> (i < length v)%nat ->
  coord (np.zip_with f u v) i = f (coord u i) (coord v i).
Proof.
  unfold coord; revert v i; induction u as [|a u IH]; intros [|b v] [|i];
    simpl; intros Hu Hv; try lia; auto.
  apply IH; lia.
Qed.

Lemma zip_with_as_map (f : Q -> Q -> Q) (u v : np.vector) :
  length u = length v ->
  np.zip_with f u v
  = map (fun i => f (coord u i) (coord v i)) (seq 0 (length u)).
Proof.
  intros H. apply (nth_ext _ _ 0 0).
  - rewrite length_zip_with, length_map, length_seq; lia.
  - intros i Hi. rewrite length_zip_with in Hi.
    fold (coord (np.zip_with f u v) i).
    fold (coord (map (fun i => f (coord u i) (coord v i))
                     (seq 0 (length u))) i).
    rewrite coord_zip_with, coord_map_seq by lia. reflexivity.
Qed.

Lemma big_sum_ext (n : nat) (f g : nat -> Q) :
  (forall i, (i < n)%nat -> f i = g i) -> big_sum n f = big_sum n g.
Proof.
  intros H; unfold big_sum. f_equal. apply map_ext_in.
  intros i Hi; apply in_seq in Hi. apply H; lia.
Qed.

Lemma sum_map_as_big_sum (g : Q -> Q) (v : np.vector) :
  np.sum (map g v) = big_sum (length v) (fun i => g (coord v i)).
Proof.
  unfold big_sum, np.sum. f_equal.
  rewrite <- (map_coord_seq v) at 1. now rewrite map_map.
Qed.

Lemma sum_square_as_squared_norm (v : np.vector) :
  np.sum (np.square v) = squared_norm v.
Proof. apply (sum_map_as_big_sum (fun a => a ^ 2)). Qed.

Lemma inner_as_big_sum (u v : np.vector) :
  length u = length v ->
  np.inner u v = big_sum (length u) (fun i => coord u i * coord v i).
Proof.
  intros H; unfold np.inner. now rewrite zip_with_as_map.
Qed.

Lemma coord_column (a : np.matrix) (i j : nat) :
  coord (np.column j (np.rows a)) i = entry a i j.
Proof.
  unfold coord, np.column, entry.
  rewrite <- (map_nth (fun r => nth j r 0)).
  destruct j; reflexivity.
Qed.

Lemma length_row (a : np.matrix) (i : nat) :
  np.well_shaped a = true -> (i < np.shape0 a)%nat ->
  length (nth i (np.rows a) []) = np.shape1 a.
Proof.
  intros Hw Hi. destruct (well_shaped_rows a Hw) as [Hn Hp].
  rewrite Forall_forall in Hp. apply Hp, nth_In. lia.
Qed.

Lemma mat_vec_coords (a : np.matrix) (x : np.vector) :
  np.well_shaped a = true -> length x = np.shape1 a ->
  mat_vec a x
  = map (fun i => big_sum (np.shape1 a)
                    (fun k => entry a i k * coord x k))
        (seq 0 (np.shape0 a)).
Proof.
  intros Hw Hx. destruct (well_shaped_rows a Hw) as [Hn _].
  unfold mat_vec. rewrite <- (map_coord_seq (map _ (np.rows a))).
  rewrite length_map, Hn. apply map_ext_in.
  intros i Hi; apply in_seq in Hi. unfold coord at 1.
  rewrite (nth_indep _ 0 (np.inner [] x)) by (rewrite length_map; lia).
  rewrite (map_nth (fun r => np.inner r x)).
  rewrite inner_as_big_sum by (rewrite length_row; auto; lia).
  rewrite length_row by (auto; lia). reflexivity.
Qed.

Lemma mat_vec_transpose_coords (a : np.matrix) (u : np.vector) :
  np.well_shaped a = true -> length u = np.shape0 a ->
  mat_vec (np.transpose a) u
  = map (fun j => big_sum (np.shape0 a)
                    (fun i => entry a i j * coord u i))
        (seq 0 (np.shape1 a)).
Proof.
  intros Hw Hu. destruct (well_shaped_rows a Hw) as [Hn _].
  unfold mat_vec; simpl. rewrite map_map. apply map_ext.
  intros j. rewrite inner_as_big_sum
    by (unfold np.column; rewrite length_map; lia).
  unfold np.column at 1; rewrite length_map, Hn.
  apply big_sum_ext; intros i _. now rewrite coord_column.
Qed.

Lemma zip_with_map_seq (f : Q -> Q -> Q) (x : np.vector) (g : nat -> Q)
    (n : nat) :
  length x = n ->
  np.zip_with f x (map g (seq 0 n))
  = map (fun j => f (coord x j) (g j)) (seq 0 n).
Proof.
  intros <-.
  rewrite zip_with_as_map by now rewrite length_map, length_seq.
  apply map_ext_in. intros j Hj; apply in_seq in Hj.
  rewrite coord_map_seq by lia. reflexivity.
Qed.

(** The engine's update is the gradient rule of the specification. *)
Lemma next_estimate_gradient_rule (a : np.matrix) (y x : np.vector) :
  np.well_shaped a = true ->
  length y = np.shape0 a -> length x = np.shape1 a ->
  next_estimate a y x = gradient_rule a y x.
Proof.
  intros Hw Hy Hx. destruct (well_shaped_rows a Hw) as [Hn _].
  unfold next_estimate, gradient_rule, vadd.
  rewrite mat_vec_transpose_coords
    by (auto; unfold vsub; rewrite length_zip_with, length_mat_vec; lia).
  rewrite zip_with_map_seq by exact Hx.
  apply map_ext. intros j. f_equal.
  apply big_sum_ext. intros i Hi. f_equal.
  unfold vsub. rewrite coord_zip_with by (rewrite ?length_mat_vec; lia).
  f_equal. rewrite mat_vec_coords by auto.
  now rewrite coord_map_seq.
Qed.

End Coordinates.

(** ** Finite sums of rationals *)

Section Sums.

Lemma sum_over_ext (l : list nat) (f g : nat -> Q) :
  (forall i, In i l -> f i == g i) -> sum_over l f == sum_over l g.
Proof.
  unfold sum_over; induction l as [|i l IH]; intros H; simpl.
  - reflexivity.
  - rewrite (H i) by (now left). rewrite IH; [reflexivity|].
    intros k Hk; apply H; now right.
Qed.

Lemma sum_over_le (l : list nat) (f g : nat -> Q) :
  (forall i, In i l -> f i <= g i) -> sum_over l f <= sum_over l g.
Proof.
  unfold sum_over; induction l as [|i l IH]; intros H; simpl.
  - apply Qle_refl.
  - apply Qplus_le_compat; [apply H; now left|].
    apply IH; intros k Hk; apply H; now right.
Qed.

Lemma sum_over_zero (l : list nat) : sum_over l (fun _ => 0) == 0.
Proof.
  unfold sum_over; induction l as [|i l IH]; simpl; [reflexivity|].
  rewrite IH; ring.
Qed.

Lemma sum_over_plus (l : list nat) (f g : nat -> Q) :
  sum_over l (fun i => f i + g i) == sum_over l f + sum_over l g.
Proof.
  unfold sum_over; induction l as [|i l IH]; simpl; [ring|].
  rewrite IH; ring.
Qed.

Lemma sum_over_scale (l : list nat) (c : Q) (f : nat -> Q) :
  sum_over l (fun i => c * f i) == c * sum_over l f.
Proof.
  unfold sum_over; induction l as [|i l IH]; simpl; [ring|].
  rewrite IH; ring.
Qed.

Lemma sum_over_swap (l m : list nat) (F : nat -> nat -> Q) :
  sum_over l (fun i => sum_over m (fun j => F i j))
  == sum_over m (fun j => sum_over l (fun i => F i j)).
Proof.
  induction l as [|i l IH].
  - change (0 == sum_over m (fun _ => 0)). now rewrite sum_over_zero.
  - change (sum_over m (fun j => F i j)
            + sum_over l (fun i => sum_over m (fun j => F i j))
            == sum_over m (fun j => F i j + sum_over l (fun i => F i j))).
    now rewrite sum_over_plus, IH.
Qed.

Lemma sum_over_nonneg (l : list nat) (f : nat -> Q) :
  (forall i, In i l -> 0 <= f i) -> 0 <= sum_over l f.
Proof.
  intros H. rewrite <- (sum_over_zero l). now apply sum_over_le.
Qed.

(** [sum (c u + d v)^2 = c^2 sum u^2 + 2 c d sum u v + d^2 sum v^2] *)
Lemma sum_over_quadratic (l : list nat) (c d : Q) (u v : nat -> Q) :
  sum_over l (fun i => (c * u i + d * v i) ^ 2)
  == c * c * sum_over l (fun i => u i ^ 2)
     + 2 * c * d * sum_over l (fun i => u i * v i)
     + d * d * sum_over l (fun i => v i ^ 2).
Proof.
  unfold sum_over; induction l as [|i l IH]; cbn [fold_right map].
  - ring.
  - rewrite IH. ring.
Qed.

(** Cauchy-Schwarz. *)
Lemma sum_over_cauchy_schwarz (l : list nat) (u v : nat -> Q) :
  sum_over l (fun i => u i * v i) * sum_over l (fun i => u i * v i)
  <= sum_over l (fun i => u i ^ 2) * sum_over l (fun i => v i ^ 2).
Proof.
  set (U := sum_over l (fun i => u i ^ 2)).
  set (V := sum_over l (fun i => v i ^ 2)).
  set (b := sum_over l (fun i => u i * v i)).
  assert (sq : forall c d, 0 <= c * c * U + 2 * c * d * b + d * d * V).
  { intros c d. unfold U, V, b. rewrite <- sum_over_quadratic.
    apply sum_over_nonneg. intros i _.
    generalize (c * u i + d * v i); intros t.
    setoid_replace (t ^ 2) with (t * t) by ring. nra. }
  assert (HU : 0 <= U).
  { generalize (sq 1 0); lra. }
  assert (HV : 0 <= V).
  { generalize (sq 0 1); lra. }
  pose proof (sq (- b) U) as H1.
  pose proof (sq V (- b)) as H2.
  pose proof (sq 1 1) as H3.
  pose proof (sq 1 (- (1))) as H4.
  destruct (Qlt_le_dec 0 U) as [HU'|HU'].
  - assert (0 <= U * (U * V - b * b)) by lra. nra.
  - assert (U == 0) by lra.
    destruct (Qlt_le_dec 0 V) as [HV'|HV'].
    + assert (0 <= V * (U * V - b * b)) by lra. nra.
    + assert (V == 0) by lra. assert (b == 0) by lra. nra.
Qed.

End Sums.

(** ** The residual under one gradient step *)

Section GradientStep.

Variables (n p : nat) (A : nat -> nat -> Q) (y x : nat -> Q).

Local Abbreviation rows_ := (seq 0 n).
Local Abbreviation cols_ := (seq 0 p).
Local Abbreviation img := (image p A).
Local Abbreviation bck := (back n A).
Local Abbreviation r := (fn_residual p A y x).
Local Abbreviation g := (fn_gradient n p A y x).
Local Abbreviation x' := (fn_next n p A y x).
Local Abbreviation r' := (fn_residual p A y x').

Lemma adjoint (u w : nat -> Q) :
  sum_over rows_ (fun i => u i * img w i)
  == sum_over cols_ (fun k => bck u k * w k).
Proof.
  unfold image, back.
  transitivity (sum_over rows_ (fun i =>
                  sum_over cols_ (fun k => u i * (A i k * w k)))).
  { apply sum_over_ext; intros i _. now rewrite sum_over_scale. }
  rewrite sum_over_swap. apply sum_over_ext; intros k _.
  transitivity (sum_over rows_ (fun i => w k * (A i k * u i))).
  { apply sum_over_ext; intros i _. ring. }
  rewrite sum_over_scale. ring.
Qed.

Lemma image_plus (u w : nat -> Q) (i : nat) :
  img (fun k => u k + w k) i == img u i + img w i.
Proof.
  unfold image. rewrite <- sum_over_plus.
  apply sum_over_ext; intros k _. ring.
Qed.

Lemma residual_after_step (i : nat) : r' i == r i - img g i.
Proof.
  unfold fn_residual, fn_next. rewrite image_plus. ring.
Qed.

Lemma squared_norm_after_step :
  sum_over rows_ (fun i => r' i ^ 2)
  == sum_over rows_ (fun i => r i ^ 2)
     - 2 * sum_over cols_ (fun j => g j ^ 2)
     + sum_over rows_ (fun i => img g i ^ 2).
Proof.
  transitivity (sum_over rows_
                  (fun i => (1 * r i + (- (1)) * img g i) ^ 2)).
  { apply sum_over_ext; intros i _. rewrite residual_after_step. ring. }
  rewrite sum_over_quadratic. rewrite (adjoint r g).
  assert (E : sum_over cols_ (fun k => bck r k * g k)
              == sum_over cols_ (fun j => g j ^ 2)).
  { apply sum_over_ext; intros k _. unfold fn_gradient. ring. }
  rewrite E. ring.
Qed.

(** Under the contraction at [g], the image of [g] is at most twice [g]. *)
Lemma image_bounded :
  sum_over cols_ (fun j => (g j - bck (img g) j) ^ 2)
    <= sum_over cols_ (fun j => g j ^ 2) ->
  sum_over rows_ (fun i => img g i ^ 2)
    <= 2 * sum_over cols_ (fun j => g j ^ 2).
Proof.
  intros H.
  set (G := sum_over cols_ (fun j => g j ^ 2)) in *.
  set (S := sum_over rows_ (fun i => img g i ^ 2)).
  set (T := sum_over cols_ (fun j => bck (img g) j ^ 2)).
  assert (ES : sum_over cols_ (fun j => g j * bck (img g) j) == S).
  { transitivity (sum_over cols_ (fun k => bck (img g) k * g k)).
    { apply sum_over_ext; intros k _. ring. }
    rewrite <- (adjoint (img g) g). unfold S.
    apply sum_over_ext; intros i _. ring. }
  assert (HT : T <= 2 * S).
  { assert (E : sum_over cols_ (fun j => (g j - bck (img g) j) ^ 2)
                == G - 2 * S + T).
    { transitivity (sum_over cols_
        (fun j => (1 * g j + (- (1)) * bck (img g) j) ^ 2)).
      { apply sum_over_ext; intros j _. ring. }
      rewrite sum_over_quadratic, ES. fold G T. ring. }
    rewrite E in H. lra. }
  pose proof (sum_over_cauchy_schwarz cols_ g (fun j => bck (img g) j))
    as CS.
  rewrite ES in CS. fold G T in CS.
  assert (HS : 0 <= S).
  { apply sum_over_nonneg; intros i _.
    generalize (img g i); intros t.
    setoid_replace (t ^ 2) with (t * t) by ring. nra. }
  assert (HG : 0 <= G).
  { apply sum_over_nonneg; intros i _.
    generalize (g i); intros t.
    setoid_replace (t ^ 2) with (t * t) by ring. nra. }
  destruct (Qlt_le_dec 0 S) as [HS'|HS']; [|lra].
  assert (S * S <= S * (2 * G)) by nra.
  nra.
Qed.

Lemma residual_norm_decreases :
  sum_over cols_ (fun j => (g j - bck (img g) j) ^ 2)
    <= sum_over cols_ (fun j => g j ^ 2) ->
  sum_over rows_ (fun i => r' i ^ 2) <= sum_over rows_ (fun i => r i ^ 2).
Proof.
  intros H. apply image_bounded in H.
  rewrite squared_norm_after_step. lra.
Qed.

End GradientStep.

(** ** The engine's step in coordinates *)

Section StepCoordinates.

Variables (a : np.matrix) (y x : np.vector).
Hypothesis Hw : np.well_shaped a = true.
Hypothesis Hy : length y = np.shape0 a.

Lemma coord_residual_of (z : np.vector) (i : nat) :
  length z = np.shape1 a -> (i < np.shape0 a)%nat ->
  coord (residual_of a y z) i
  = coord y i - big_sum (np.shape1 a) (fun k => entry a i k * coord z k).
Proof.
  intros Hz Hi. destruct (well_shaped_rows a Hw) as [Hn _].
  unfold residual_of, vsub.
  rewrite coord_zip_with by (rewrite ?length_mat_vec; lia).
  rewrite mat_vec_coords by auto. now rewrite coord_map_seq.
Qed.

Lemma squared_norm_residual_of (z : np.vector) :
  length z = np.shape1 a ->
  squared_norm (residual_of a y z)
  = big_sum (np.shape0 a) (fun i =>
      (coord y i - big_sum (np.shape1 a) (fun k => entry a i k * coord z k))
      ^ 2).
Proof.
  intros Hz. destruct (well_shaped_rows a Hw) as [Hn _].
  unfold squared_norm. rewrite length_residual_of by lia. rewrite Hy.
  apply big_sum_ext; intros i Hi. now rewrite coord_residual_of.
Qed.

Hypothesis Hx : length x = np.shape1 a.

Lemma coord_next_estimate (j : nat) :
  (j < np.shape1 a)%nat ->
  coord (next_estimate a y x) j
  = coord x j
    + big_sum (np.shape0 a) (fun i =>
        entry a i j
        * (coord y i
           - big_sum (np.shape1 a) (fun k => entry a i k * coord x k))).
Proof.
  intros Hj. rewrite next_estimate_gradient_rule by auto.
  unfold gradient_rule. now rewrite coord_map_seq.
Qed.

(** The gradient [At (y - a x)] as a vector. *)
Local Abbreviation gradient :=
  (mat_vec (np.transpose a) (residual_of a y x)).

Lemma length_gradient : length gradient = np.shape1 a.
Proof.
  now rewrite length_mat_vec, length_rows_transpose.
Qed.

Lemma coord_gradient (j : nat) :
  (j < np.shape1 a)%nat ->
  coord gradient j
  = big_sum (np.shape0 a) (fun i =>
      entry a i j
      * (coord y i
         - big_sum (np.shape1 a) (fun k => entry a i k * coord x k))).
Proof.
  intros Hj. destruct (well_shaped_rows a Hw) as [Hn _].
  rewrite mat_vec_transpose_coords
    by (auto; rewrite length_residual_of; lia).
  rewrite coord_map_seq by exact Hj.
  apply big_sum_ext; intros i Hi. now rewrite coord_residual_of.
Qed.

(** Under the precondition the squared residual norm does not go up. *)
Lemma step_residual_le :
  contractive a ->
  squared_norm (residual_of a y (next_estimate a y x))
  <= squared_norm (residual_of a y x).
Proof.
  intros Hc. specialize (Hc gradient length_gradient).
  pose proof (residual_norm_decreases (np.shape0 a) (np.shape1 a)
                (entry a) (coord y) (coord x)) as Hdec.
  unfold fn_residual, fn_next, fn_gradient, fn_residual, image, back in Hdec.
  rewrite !squared_norm_residual_of
    by (auto using length_next_estimate).
  assert (E1 : forall f : Q -> Q,
    big_sum (np.shape0 a) (fun i =>
      f (coord y i - big_sum (np.shape1 a)
           (fun k => entry a i k * coord (next_estimate a y x) k)))
    = sum_over (seq 0 (np.shape0 a)) (fun i =>
      f (coord y i - sum_over (seq 0 (np.shape1 a)) (fun k =>
           entry a i k
           * (coord x k
              + sum_over (seq 0 (np.shape0 a)) (fun i0 =>
                  entry a i0 k
                  * (coord y i0
                     - sum_over (seq 0 (np.shape1 a))
                         (fun k0 => entry a i0 k0 * coord x k0)))))))).
  { intros f. apply big_sum_ext; intros i Hi. f_equal. f_equal.
    apply big_sum_ext; intros k Hk. now rewrite coord_next_estimate. }
  rewrite (E1 (fun t => t ^ 2)).
  apply Hdec. clear Hdec E1.
  unfold squared_norm in Hc.
  unfold normal_residual in Hc at 1. rewrite length_map, length_seq in Hc.
  rewrite length_gradient in Hc.
  assert (E2 : forall j, (j < np.shape1 a)%nat ->
    coord (normal_residual a gradient) j
    = coord gradient j
      - big_sum (np.shape0 a) (fun i =>
          entry a i j
          * big_sum (np.shape1 a) (fun k => entry a i k * coord gradient k))).
  { intros j Hj. unfold normal_residual. now rewrite coord_map_seq. }
  set (gF := fun j => big_sum (np.shape0 a) (fun i =>
                entry a i j
                * (coord y i
                   - big_sum (np.shape1 a)
                       (fun k => entry a i k * coord x k)))).
  assert (E3 :
    big_sum (np.shape1 a)
      (fun j => coord (normal_residual a gradient) j ^ 2)
    = big_sum (np.shape1 a) (fun j =>
        (gF j - big_sum (np.shape0 a) (fun i =>
                  entry a i j
                  * big_sum (np.shape1 a) (fun k => entry a i k * gF k)))
        ^ 2)).
  { apply big_sum_ext; intros j Hj.
    rewrite (E2 j Hj), coord_gradient by exact Hj. fold (gF j).
    do 2 f_equal. apply big_sum_ext; intros i Hi. f_equal.
    apply big_sum_ext; intros k Hk. now rewrite coord_gradient. }
  assert (E4 :
    big_sum (np.shape1 a) (fun j => coord gradient j ^ 2)
    = big_sum (np.shape1 a) (fun j => gF j ^ 2)).
  { apply big_sum_ext; intros j Hj. now rewrite coord_gradient. }
  rewrite E3, E4 in Hc. exact Hc.
Qed.

End StepCoordinates.

(** ** Iterations on instances of the documented shapes *)

Lemma shapes_agree_inv (a : np.matrix) (y : np.vector)
    (f : option np.vector) :
  shapes_agree a y f = true ->
  np.well_shaped a = true
  /\ length y = np.shape0 a
  /\ forall t, f = Some t -> length t = np.shape1 a.
Proof.
  unfold shapes_agree; intros H.
  apply andb_true_iff in H as [H H3]. apply andb_true_iff in H as [H1 H2].
  apply Nat.eqb_eq in H2. repeat split; auto.
  intros t ->. now apply Nat.eqb_eq.
Qed.

Lemma consistent_inv (self : landweber) :
  consistent self = true ->
  shapes_agree (input_matrix self) (output_variable self) (true_signal self)
  = true
  /\ length (landw_estimate self) = np.shape1 (input_matrix self)
  /\ (true_signal self = None \/ exists old, mse self = Some old).
Proof.
  unfold consistent; intros H.
  apply andb_true_iff in H as [H H3]. apply andb_true_iff in H as [H1 H2].
  apply Nat.eqb_eq in H2. repeat split; auto.
  destruct (true_signal self); [right|now left].
  destruct (mse self) as [old|]; [now exists old|discriminate].
Qed.

Lemma risk_update_frame (self self' : landweber) (out : result unit) :
  risk_update self = (out, self') ->
  same_model self self'
  /\ iter self' = iter self
  /\ landw_estimate self' = landw_estimate self
  /\ residual_vector self' = residual_vector self
  /\ residuals self' = residuals self.
Proof.
  unfold risk_update, same_model.
  destruct (true_signal self) as [f|] eqn:Ef.
  - destruct (np.subtract f (landw_estimate self)).
    + destruct (mse self); intros [= <- <-]; project; rewrite ?Ef; tauto.
    + intros [= <- <-]; tauto.
  - intros [= <- <-]; tauto.
Qed.

(** On the documented shapes the risk update succeeds and appends the mean
    of the squared deviations. *)
Lemma risk_update_consistent (self : landweber) (f old : np.vector) :
  true_signal self = Some f -> mse self = Some old ->
  length f = length (landw_estimate self) ->
  risk_update self
  = (Ok tt,
     set_mse (old ++ [mean_squared_deviation f (landw_estimate self)]) self).
Proof.
  intros Ef Em Hl. unfold risk_update. rewrite Ef, Em.
  unfold np.subtract. rewrite broadcast_same_length by exact Hl.
  unfold np.append. do 4 f_equal.
  unfold np.mean, mean_squared_deviation, np.square.
  rewrite sum_map_as_big_sum, length_map, length_zip_with.
  replace (Nat.min (length f) (length (landw_estimate self)))
    with (length (landw_estimate self)) by lia.
  f_equal. apply big_sum_ext; intros j Hj.
  rewrite coord_zip_with by lia. reflexivity.
Qed.

Lemma consistent_iteration (self : landweber) :
  consistent self = true ->
  landw_one_iteration self = (Ok tt, iterated self)
  /\ consistent (iterated self) = true.
Proof.
  intros Hc. destruct (consistent_inv self Hc) as (Hs & Hx & Hm).
  destruct (shapes_agree_inv _ _ _ Hs) as (Hw & Hy & Hf).
  rewrite iteration_on_matching_shapes by auto.
  unfold iterated.
  destruct (true_signal self) as [f|] eqn:Ef.
  - destruct Hm as [Hm|[old Hm]]; [discriminate|]. rewrite Hm.
    rewrite (risk_update_consistent _ f old); auto.
    + split; [reflexivity|].
      unfold consistent, advanced; project. rewrite Ef, Hs.
      rewrite length_next_estimate by auto. now rewrite Nat.eqb_refl.
    + unfold advanced; project.
      rewrite length_next_estimate by auto. now apply Hf.
  - unfold risk_update, advanced at 1; project. rewrite Ef.
    assert (E : consistent (advanced self) = true).
    { unfold consistent, advanced; project. rewrite Ef, Hs.
      rewrite length_next_estimate by auto. now rewrite Nat.eqb_refl. }
    destruct (mse self); auto.
Qed.

Lemma init_consistent (a : np.matrix) (y : np.vector)
    (f : option np.vector) (self : landweber) :
  shapes_agree a y f = true -> init a y f = Ok self ->
  consistent self = true.
Proof.
  intros Hs [= <-]. unfold consistent; cbn [input_matrix output_variable
    true_signal landw_estimate mse]. rewrite Hs.
  unfold np.zeros. rewrite repeat_length, Nat.eqb_refl.
  destruct f; reflexivity.
Qed.

Lemma reachable_built_from (a : np.matrix) (y : np.vector)
    (f : option np.vector) (self : landweber) :
  reachable a y f self -> built_from a y f self.
Proof.
  apply reachable_ind_iteration.
  - intros s [= <-]. repeat split.
  - intros s out s' (Ha & Hy & Hf) H.
    destruct (iteration_effect _ _ _ H) as ((E1 & E2 & E3 & _) & _).
    unfold built_from. now rewrite E1, E2, E3.
Qed.

Lemma reachable_consistent (a : np.matrix) (y : np.vector)
    (f : option np.vector) (self : landweber) :
  shapes_agree a y f = true -> reachable a y f self ->
  consistent self = true.
Proof.
  intros Hs.
  apply (reachable_ind_iteration a y f (fun s => consistent s = true)).
  - intros s. now apply init_consistent.
  - intros s out s' Hc H.
    destruct (consistent_iteration s Hc) as [E Hc'].
    rewrite E in H. now injection H as _ <-.
Qed.

(** ** The residual trace under the precondition *)

Lemma non_increasing_snoc (front : list Q) (last v : Q) :
  non_increasing (front ++ [last]) -> v <= last ->
  non_increasing ((front ++ [last]) ++ [v]).
Proof.
  intros H Hv m r r' Hm HSm.
  assert (Hlen : length (front ++ [last]) = S (length front))
    by (rewrite length_app; simpl; lia).
  destruct (Nat.lt_ge_cases (S m) (length (front ++ [last]))) as [Hlt|Hge].
  - rewrite nth_error_app1 in Hm, HSm by lia. eapply H; eauto.
  - assert (HSm' : (S m < length ((front ++ [last]) ++ [v]))%nat)
      by (apply nth_error_Some; congruence).
    rewrite length_app in HSm'; simpl in HSm'.
    assert (m = length front) by lia; subst m.
    rewrite nth_error_app1 in Hm by lia.
    rewrite nth_error_app2 in Hm by lia.
    rewrite nth_error_app2 in HSm by lia.
    rewrite Nat.sub_diag in Hm. rewrite Hlen, Nat.sub_diag in HSm.
    simpl in Hm, HSm. injection Hm as <-. injection HSm as <-. exact Hv.
Qed.

Lemma squared_norm_initial_residual (a : np.matrix) (y : np.vector) :
  np.well_shaped a = true -> length y = np.shape0 a ->
  squared_norm (residual_of a y (np.zeros (np.shape1 a))) == squared_norm y.
Proof.
  intros Hw Hy.
  rewrite squared_norm_residual_of
    by (auto; unfold np.zeros; apply repeat_length).
  unfold squared_norm; rewrite Hy.
  apply (sum_over_ext (seq 0 (np.shape0 a))). intros i _.
  assert (E : big_sum (np.shape1 a)
                (fun k => entry a i k * coord (np.zeros (np.shape1 a)) k)
              == 0).
  { rewrite <- (sum_over_zero (seq 0 (np.shape1 a))).
    apply (sum_over_ext (seq 0 (np.shape1 a))). intros k _.
    unfold coord, np.zeros. rewrite nth_repeat. ring. }
  rewrite E. ring.
Qed.

Lemma init_tracks_residual (a : np.matrix) (y : np.vector)
    (f : option np.vector) (self : landweber) :
  np.well_shaped a = true -> length y = np.shape0 a ->
  init a y f = Ok self -> tracks_residual a y self.
Proof.
  intros Hw Hy [= <-]. unfold tracks_residual, built_from; project.
  repeat split.
  - unfold np.zeros; apply repeat_length.
  - intros m r r' _ H. destruct m; discriminate.
  - exists [], (np.sum (np.square y)). split; [reflexivity|].
    rewrite sum_square_as_squared_norm.
    symmetry; now apply squared_norm_initial_residual.
Qed.

Lemma iteration_tracks_residual (a : np.matrix) (y : np.vector)
    (self self' : landweber) (out : result unit) :
  np.well_shaped a = true -> length y = np.shape0 a -> contractive a ->
  tracks_residual a y self ->
  landw_one_iteration self = (out, self') ->
  tracks_residual a y self'.
Proof.
  intros Hw Hy Hc ((Ha & Hb & _) & Hx & Hmono & front & last & Hres & Hlast).
  rewrite iteration_on_matching_shapes by (rewrite ?Ha, ?Hb; auto).
  intros H. apply risk_update_frame in H
    as ((E1 & E2 & E3 & _) & _ & Ex & _ & Er).
  revert E1 E2 E3 Ex Er. unfold advanced; project. rewrite Ha, Hb.
  intros E1 E2 E3 Ex Er. unfold tracks_residual, built_from.
  rewrite E1, E2, Ex, Er. repeat split.
  - now apply length_next_estimate.
  - unfold np.append. rewrite Hres. apply non_increasing_snoc.
    + now rewrite <- Hres.
    + rewrite sum_square_as_squared_norm, Hlast.
      now apply step_residual_le.
  - exists (residuals self), (np.sum
      (np.square (residual_of a y (next_estimate a y (landw_estimate self))))).
    split; [reflexivity|]. now rewrite sum_square_as_squared_norm.
Qed.

Lemma reachable_tracks_residual (a : np.matrix) (y : np.vector)
    (f : option np.vector) (self : landweber) :
  np.well_shaped a = true -> length y = np.shape0 a -> contractive a ->
  reachable a y f self -> tracks_residual a y self.
Proof.
  intros Hw Hy Hc.
  apply (reachable_ind_iteration a y f (tracks_residual a y)).
  - intros s. now apply init_tracks_residual.
  - intros s out s' Ht H. eapply iteration_tracks_residual; eauto.
Qed.

(** ** Calls of [landw] *)

Lemma for_range_ext (n : nat) (body body' : method unit) :
  (forall self, body self = body' self) ->
  forall self, for_range n body self = for_range n body' self.
Proof.
  intros H; induction n as [|n IH]; intros self; simpl; [reflexivity|].
  unfold bind. rewrite H.
  destruct (body' self) as [[[]|e] s1]; [apply IH|reflexivity].
Qed.

Lemma landw_plus (m n : Z) (self : landweber) :
  (0 <= m)%Z -> (0 <= n)%Z ->
  (landw m ;; landw n) self = landw (m + n) self.
Proof.
  intros Hm Hn. unfold landw.
  rewrite Z2Nat.inj_add by lia. symmetry; apply for_range_plus.
Qed.

Lemma for_range_effect (n : nat) (self self' : landweber)
    (out : result unit) :
  for_range n landw_one_iteration self = (out, self') ->
  exists new,
    residuals self' = residuals self ++ new
    /\ iter self' = (iter self + Z.of_nat (length new))%Z
    /\ (length new <= n)%nat
    /\ (out = Ok tt -> length new = n).
Proof.
  revert self; induction n as [|n IH]; intros self; simpl.
  - intros [= <- <-]. exists []. rewrite app_nil_r. simpl.
    repeat split; auto; lia.
  - unfold bind.
    destruct (landw_one_iteration self) as [[[]|e] s1] eqn:E;
      destruct (iteration_effect _ _ _ E) as [_ Heff].
    + destruct Heff as [([e He] & _)|([v Hv] & Hi & _)]; [discriminate|].
      intros H. destruct (IH _ H) as (new & Hr & Hit & Hle & Hok).
      exists (v :: new). rewrite Hr, Hv, <- app_assoc. simpl length.
      repeat split; auto; try lia.
    + intros [= <- <-].
      destruct Heff as [(_ & Hr & Hi & _)|([v Hv] & Hi & _)].
      * exists []. rewrite app_nil_r. simpl.
        repeat split; auto; try lia. discriminate.
      * exists [v]. simpl. repeat split; auto; try lia. discriminate.
Qed.

(** ** The risk trace next to the residual trace *)

Lemma reachable_mse_shorter (a : np.matrix) (y f : np.vector)
    (self : landweber) :
  reachable a y (Some f) self ->
  exists l, mse self = Some l /\ (length l < length (residuals self))%nat.
Proof.
  apply (reachable_ind_iteration a y (Some f)
           (fun s => exists l, mse s = Some l
                               /\ (length l < length (residuals s))%nat)).
  - intros s [= <-]. exists []. simpl. split; [reflexivity|lia].
  - intros s out s' (l & Hl & Hlt) H.
    destruct (iteration_effect _ _ _ H)
      as [_ [(_ & Hr & _ & Hm)|([v Hv] & _ & Hm)]].
    + exists l. rewrite Hm, Hr. auto.
    + destruct Hm as [Hm|(old & w & Ho & Hm)].
      * exists l. rewrite Hm, Hv, length_app. simpl. split; [exact Hl|lia].
      * exists (old ++ [w]). rewrite Hm, Hv, !length_app. simpl.
        split; [reflexivity|]. rewrite Hl in Ho. injection Ho as <-. lia.
Qed.

Lemma reachable_mse_one_shorter (a : np.matrix) (y f : np.vector)
    (self : landweber) :
  shapes_agree a y (Some f) = true ->
  reachable a y (Some f) self ->
  exists l, mse self = Some l /\ length (residuals self) = S (length l).
Proof.
  intros Hs Hr.
  assert (P : consistent self = true
              /\ true_signal self = Some f
              /\ exists l, mse self = Some l
                           /\ length (residuals self) = S (length l)).
  { revert self Hr.
    apply (reachable_ind_iteration a y (Some f)
      (fun s => consistent s = true
                /\ true_signal s = Some f
                /\ exists l, mse s = Some l
                             /\ length (residuals s) = S (length l))).
    - intros s E. split; [now apply (init_consistent a y (Some f))|].
      injection E as <-. split; [reflexivity|]. now exists [].
    - intros s out s' (Hc & Hf & l & Hl & Hlen) H.
      destruct (consistent_iteration s Hc) as [E Hc'].
      rewrite E in H. injection H as _ <-. split; [exact Hc'|].
      unfold iterated. rewrite Hf, Hl. unfold advanced; project.
      split; [exact Hf|]. eexists; split; [reflexivity|].
      unfold np.append. rewrite !length_app. simpl. lia. }
  tauto.
Qed.

(** ** Indexing and rounding *)

Lemma getitem_in_range (v : np.vector) (i : Z) :
  (0 <= i < Z.of_nat (length v))%Z ->
  np.getitem v i = Ok (coord v (Z.to_nat i)).
Proof.
  intros H. unfold np.getitem.
  replace ((0 <=? i)%Z && (i <? Z.of_nat (length v))%Z) with true
    by (symmetry; apply andb_true_iff; split;
        [apply Z.leb_le|apply Z.ltb_lt]; lia).
  destruct (nth_error v (Z.to_nat i)) as [x|] eqn:E.
  - unfold coord. now rewrite (nth_error_nth _ _ _ E).
  - apply nth_error_None in E. lia.
Qed.

(** Beyond the last element: [OverflowError] for an index that only fits an
    unsigned 64-bit integer, [IndexError] otherwise. *)
Lemma getitem_beyond (v : np.vector) (i : Z) :
  (Z.of_nat (length v) <= i)%Z ->
  np.getitem v i
  = if ((2 ^ 63 <=? i) && (i <? 2 ^ 64))%Z then Raise OverflowError
    else Raise IndexError.
Proof.
  intros H. unfold np.getitem.
  replace (i <? Z.of_nat (length v))%Z with false
    by (symmetry; apply Z.ltb_ge; lia).
  replace (i <? 0)%Z with false by (symmetry; apply Z.ltb_ge; lia).
  now rewrite !andb_false_r.
Qed.

Lemma getitem_outcome (v : np.vector) (i : Z) :
  (exists x, np.getitem v i = Ok x)
  \/ np.getitem v i = Raise IndexError
  \/ np.getitem v i = Raise OverflowError.
Proof.
  unfold np.getitem.
  destruct ((0 <=? i)%Z && (i <? Z.of_nat (length v))%Z).
  - destruct (nth_error v (Z.to_nat i)); eauto.
  - destruct ((- Z.of_nat (length v) <=? i)%Z && (i <? 0)%Z).
    + destruct (nth_error v (Z.to_nat (Z.of_nat (length v) + i))); eauto.
    + destruct ((2 ^ 63 <=? i)%Z && (i <? 2 ^ 64)%Z); auto.
Qed.

Lemma ceiling_beyond (t : Q) (len : Z) :
  inject_Z len - 1 < t -> (len <= Qceiling t)%Z.
Proof.
  intros H. pose proof (Qle_ceiling t) as Hc.
  assert (Hlt : inject_Z (len - 1) < inject_Z (Qceiling t)).
  { unfold Z.sub. rewrite inject_Z_plus, inject_Z_opp.
    change (inject_Z 1) with 1. lra. }
  rewrite <- Zlt_Qlt in Hlt. lia.
Qed.


(** ** The small engine *)

Lemma example_engine_constructed :
  init example_matrix example_observation (Some example_signal)
  = Ok example_engine.
Proof. reflexivity. Qed.

Lemma example_engine_reachable (iter_num : Z) :
  reachable example_matrix example_observation (Some example_signal)
    (snd (landw iter_num example_engine)).
Proof.
  eapply reach_landw.
  - apply reach_init, example_engine_constructed.
  - apply surjective_pairing.
Qed.

Lemma example_matrix_contractive : contractive example_matrix.
Proof.
  intros x Hx. destruct x as [|u [|v [|w x]]]; try discriminate.
  unfold squared_norm, normal_residual, big_sum, entry, coord.
  cbn [np.shape0 np.shape1 example_matrix np.rows seq map nth length
       fold_right].
  setoid_replace ((u - ((1 # 2) * ((1 # 2) * u + (0 * v + 0))
                        + (0 * (0 * u + (1 * v + 0)) + 0))) ^ 2)
    with ((9 # 16) * (u * u)) by ring.
  setoid_replace ((v - (0 * ((1 # 2) * u + (0 * v + 0))
                        + (1 * (0 * u + (1 * v + 0)) + 0))) ^ 2)
    with 0 by ring.
  setoid_replace (u ^ 2) with (u * u) by ring.
  setoid_replace (v ^ 2) with (v * v) by ring.
  nra.
Qed.

(** ** One iteration, whatever the shapes *)

Lemma dot_Ok_inv (a : np.matrix) (x v : np.vector) :
  np.dot a x = Ok v -> v = mat_vec a x /\ np.shape1 a = length x.
Proof.
  unfold np.dot. destruct (np.shape1 a =? length x)%nat eqn:E;
    [|discriminate].
  intros [= <-]. apply Nat.eqb_eq in E. auto.
Qed.

Lemma broadcast_Ok_same_length (f : Q -> Q -> Q) (u v w : np.vector) :
  np.broadcast f u v = Ok w -> length u = length v ->
  w = np.zip_with f u v.
Proof.
  intros H Hl. rewrite broadcast_same_length in H by exact Hl.
  now injection H.
Qed.

(** Whether a binary ufunc raises depends on the lengths only. *)
Lemma broadcast_defined_by_lengths (f : Q -> Q -> Q) (u v v' w : np.vector) :
  np.broadcast f u v = Ok w -> length v' = length v ->
  exists w', np.broadcast f u v' = Ok w'.
Proof.
  unfold np.broadcast. intros H ->.
  destruct (length u =? length v)%nat; [eauto|].
  destruct (length u =? 1)%nat; [eauto|].
  destruct (length v =? 1)%nat; [eauto|discriminate].
Qed.

Lemma gradient_update_Ok_length (a : np.matrix) (y x x' : np.vector) :
  gradient_update a y x = Ok x' ->
  length x = np.shape1 a /\ length x' = np.shape1 a.
Proof.
  unfold gradient_update, rbind.
  destruct (np.dot a x) as [fitted|] eqn:E1; [|discriminate].
  destruct (np.subtract y fitted) as [misfit|]; [|discriminate].
  destruct (np.dot (np.transpose a) misfit) as [g|] eqn:E3; [|discriminate].
  apply dot_Ok_inv in E1 as [_ E1]. apply dot_Ok_inv in E3 as [-> _].
  intros H. apply broadcast_Ok_same_length in H.
  - subst x'. rewrite length_zip_with, length_mat_vec, length_rows_transpose.
    split; lia.
  - rewrite length_mat_vec, length_rows_transpose. lia.
Qed.

(** Once line 110 has produced the new estimate, line 113 cannot raise. *)
Lemma residual_update_defined (a : np.matrix) (y x x' : np.vector) :
  gradient_update a y x = Ok x' ->
  exists r', residual_update a y x' = Ok r'.
Proof.
  intros H. destruct (gradient_update_Ok_length _ _ _ _ H) as [Hx Hx'].
  unfold gradient_update, residual_update, rbind in *.
  destruct (np.dot a x) as [fitted|] eqn:E1; [|discriminate].
  destruct (np.subtract y fitted) as [misfit|] eqn:E2; [|discriminate].
  rewrite dot_aligned by congruence.
  apply dot_Ok_inv in E1 as [-> _].
  apply (broadcast_defined_by_lengths _ _ _ _ _ E2).
  now rewrite !length_mat_vec.
Qed.

Lemma iteration_general (self : landweber) :
  landw_one_iteration self
  = match gradient_update (input_matrix self) (output_variable self)
            (landw_estimate self) with
    | Raise e => (Raise e, self)
    | Ok x' =>
        match residual_update (input_matrix self) (output_variable self) x'
        with
        | Raise e => (Raise e, set_landw_estimate x' self)
        | Ok r' => risk_update (advanced_to x' r' self)
        end
    end.
Proof.
  unfold gradient_update, residual_update, risk_update, advanced_to, rbind.
  run_method.
  repeat (split_result; try reflexivity).
Qed.

(** The three ways an iteration can end. *)
Lemma iteration_outcome (self : landweber) :
  (exists e,
      gradient_update (input_matrix self) (output_variable self)
        (landw_estimate self) = Raise e
      /\ landw_one_iteration self = (Raise e, self))
  \/ (exists x' r',
        gradient_update (input_matrix self) (output_variable self)
          (landw_estimate self) = Ok x'
        /\ residual_update (input_matrix self) (output_variable self) x'
           = Ok r'
        /\ landw_one_iteration self = risk_update (advanced_to x' r' self)).
Proof.
  rewrite iteration_general.
  destruct (gradient_update _ _ _) as [x'|e] eqn:E; [right|left; eauto].
  destruct (residual_update_defined _ _ _ _ E) as [r' Er].
  exists x', r'. now rewrite Er.
Qed.

Lemma gradient_update_observation_mismatch (a : np.matrix)
    (y x : np.vector) :
  np.well_shaped a = true -> length x = np.shape1 a ->
  length y <> np.shape0 a -> length y <> 1%nat ->
  gradient_update a y x = Raise ValueError.
Proof.
  intros Hw Hx Hy H1. destruct (well_shaped_rows a Hw) as [Hn _].
  unfold gradient_update, rbind. rewrite dot_aligned by congruence.
  unfold np.subtract, np.broadcast. rewrite length_mat_vec, Hn.
  rewrite (proj2 (Nat.eqb_neq _ _) Hy), (proj2 (Nat.eqb_neq _ _) H1).
  destruct (np.shape0 a =? 1)%nat eqn:E1; [|reflexivity].
  apply Nat.eqb_eq in E1.
  rewrite dot_misaligned; [reflexivity|].
  simpl. rewrite length_map. lia.
Qed.

Lemma broadcast_raises (g : Q -> Q -> Q) (u v : np.vector) (e : exn) :
  np.broadcast g u v = Raise e -> e = ValueError.
Proof.
  unfold np.broadcast.
  destruct (length u =? length v)%nat; [discriminate|].
  destruct (length u =? 1)%nat; [discriminate|].
  destruct (length v =? 1)%nat; [discriminate|]. now intros [= <-].
Qed.

Lemma dot_raises (a : np.matrix) (x : np.vector) (e : exn) :
  np.dot a x = Raise e -> e = ValueError.
Proof.
  unfold np.dot. destruct (np.shape1 a =? length x)%nat; [discriminate|].
  now intros [= <-].
Qed.

(** The gradient update raises nothing but [ValueError]. *)
Lemma gradient_update_raises (a : np.matrix) (y x : np.vector) (e : exn) :
  gradient_update a y x = Raise e -> e = ValueError.
Proof.
  unfold gradient_update, rbind.
  destruct (np.dot a x) as [fitted|e1] eqn:E1;
    [|intros [= <-]; eapply dot_raises; eauto].
  destruct (np.subtract y fitted) as [misfit|e2] eqn:E2;
    [|intros [= <-]; eapply broadcast_raises; eauto].
  destruct (np.dot (np.transpose a) misfit) as [g|e3] eqn:E3;
    [|intros [= <-]; eapply dot_raises; eauto].
  apply broadcast_raises.
Qed.

Lemma square_as_product (t : Q) : t ^ 2 == t * t.
Proof. ring. Qed.

Lemma tall_matrix_contractive : contractive tall_matrix.
Proof.
  intros x Hx. destruct x as [|u [|v x]]; try discriminate.
  unfold squared_norm, normal_residual, big_sum, entry, coord.
  cbn [np.shape0 np.shape1 tall_matrix np.rows seq map nth length
       fold_right].
  rewrite !square_as_product. nra.
Qed.

(** The interpolation body only loads from the array it is given. *)
Lemma interpolation_call_is_pure (w : world) (residuals : nat) (t : Q) :
  calculate_interpolated_residual_call residuals t w
  = (calculate_interpolated_residual (arrays w residuals) t, w).
Proof.
  unfold calculate_interpolated_residual_call,
    calculate_interpolated_residual, action_bind, action_ret, load_item,
    rbind.
  destruct (np.getitem (arrays w residuals) (Qfloor t)); [|reflexivity].
  destruct (np.getitem (arrays w residuals) (Qceiling t)); reflexivity.
Qed.

(** Above the last index the interpolation raises, and which exception
    depends on the size of the index only. *)
Lemma interpolation_above (trace : np.vector) (t : Q) :
  (Z.of_nat (length trace) < 2 ^ 63)%Z ->
  inject_Z (Z.of_nat (length trace)) - 1 < t ->
  calculate_interpolated_residual trace t
  = if ((2 ^ 63 <=? Qfloor t) && (Qfloor t <? 2 ^ 64))%Z
    then Raise OverflowError else Raise IndexError.
Proof.
  intros Hlen H. pose proof (ceiling_beyond t _ H) as Hc.
  pose proof (Qle_floor_ceiling t) as Hfc. rewrite <- Zle_Qle in Hfc.
  pose proof (Qlt_floor t) as Hf. pose proof (Qceiling_lt t) as Hc'.
  assert (Hcf : (Qceiling t <= Qfloor t + 1)%Z).
  { assert (A : inject_Z (Qceiling t - 1) < inject_Z (Qfloor t + 1)) by lra.
    rewrite <- Zlt_Qlt in A. lia. }
  unfold calculate_interpolated_residual, rbind.
  destruct (Z_lt_le_dec (Qfloor t) (Z.of_nat (length trace))) as [Hin|Hout].
  - replace ((2 ^ 63 <=? Qfloor t)%Z && (Qfloor t <? 2 ^ 64)%Z) with false
      by (symmetry; apply andb_false_iff; left; apply Z.leb_gt; lia).
    rewrite (getitem_beyond trace (Qceiling t) Hc).
    replace ((2 ^ 63 <=? Qceiling t)%Z && (Qceiling t <? 2 ^ 64)%Z)
      with false
      by (symmetry; apply andb_false_iff; left; apply Z.leb_gt; lia).
    destruct (getitem_outcome trace (Qfloor t)) as [[x ->]|[-> | E]];
      try reflexivity.
    exfalso. revert E. unfold np.getitem.
    destruct ((0 <=? Qfloor t)%Z && (Qfloor t <? Z.of_nat (length trace))%Z);
      [destruct (nth_error _ _); discriminate|].
    destruct ((- Z.of_nat (length trace) <=? Qfloor t)%Z
              && (Qfloor t <? 0)%Z);
      [destruct (nth_error _ _); discriminate|].
    replace (2 ^ 63 <=? Qfloor t)%Z with false
      by (symmetry; apply Z.leb_gt; lia).
    discriminate.
  - rewrite (getitem_beyond trace (Qfloor t) Hout).
    destruct ((2 ^ 63 <=? Qfloor t)%Z && (Qfloor t <? 2 ^ 64)%Z);
      reflexivity.
Qed.

(** * The claims *)

(** C1. On an engine built from an n x p matrix [a] and an n-vector [y], one
    iteration (the step that [landw] invokes) returns normally and replaces
    the estimate [x] by [x + At (y - a x)], computed coordinate by coordinate
    with the matrix and the observations bound at construction, which the
    step leaves as they are. *)
Theorem landw_one_iteration_gradient_rule (a : np.matrix) (y : np.vector)
    (f : option np.vector) (self : landweber) :
  shapes_agree a y f = true ->
  reachable a y f self ->
  exists self',
    landw_one_iteration self = (Ok tt, self')
    /\ landw 1 self = (Ok tt, self')
    /\ landw_estimate self' = gradient_rule a y (landw_estimate self)
    /\ input_matrix self' = a
    /\ output_variable self' = y.
Proof.
  intros Hs Hr.
  pose proof (reachable_consistent a y f self Hs Hr) as Hc.
  destruct (reachable_built_from a y f self Hr) as (Ha & Hy & Hf).
  destruct (consistent_iteration self Hc) as [E _].
  destruct (consistent_inv self Hc) as (_ & Hx & _).
  destruct (shapes_agree_inv a y f Hs) as (Hw & Hl & _).
  exists (iterated self). rewrite landw_one, E.
  assert (Hadv : landw_estimate (advanced self) = gradient_rule a y
                   (landw_estimate self)
                 /\ input_matrix (advanced self) = a
                 /\ output_variable (advanced self) = y).
  { unfold advanced; project. rewrite Ha, Hy.
    rewrite next_estimate_gradient_rule by (auto; congruence). auto. }
  repeat split; unfold iterated;
    destruct (true_signal self); try destruct (mse self); project;
    apply Hadv.
Qed.

Lemma landw_one_iteration_gradient_rule_witness :
  exists self',
    landw_one_iteration example_engine = (Ok tt, self')
    /\ landw 1 example_engine = (Ok tt, self')
    /\ landw_estimate self'
       = gradient_rule example_matrix example_observation [0; 0]
    /\ input_matrix self' = example_matrix
    /\ output_variable self' = example_observation.
Proof.
  apply (landw_one_iteration_gradient_rule example_matrix
           example_observation (Some example_signal) example_engine).
  - reflexivity.
  - apply reach_init. reflexivity.
Defined.

(** C2, the claim as stated fails: on the 2 x 1 matrix with entries 0.125
    and 1, for which [I - At A] contracts, and the observations 2 and 3,
    the binary64 residual trace goes up from entry 5 to entry 6. *)
Lemma residuals_go_up_in_binary64 :
  let self := float64.landw 6 tall_engine_binary64 in
  contractive tall_matrix
  /\ float64.exact 0.125 == 1 # 8
  /\ float64.exact 1 == 1
  /\ nth_error (float64.residuals self) 5
     = Some 0x1.4ccccccccccccp+1%float    (* 2.5999999999999996 *)
  /\ nth_error (float64.residuals self) 6
     = Some 0x1.4cccccccccccdp+1%float    (* 2.6000000000000001 *)
  /\ PrimFloat.leb 0x1.4cccccccccccdp+1 0x1.4ccccccccccccp+1 = false.
Proof.
  cbv zeta. split; [exact tall_matrix_contractive|].
  repeat split; vm_compute; reflexivity.
Qed.

(** In exact arithmetic the trace can still go up when the single
    observation is broadcast over the rows: entry 0 is the squared norm of
    the 1-vector, the later entries are squared norms of n-vectors. *)
Lemma broadcast_observation_raises_the_trace :
  let a := np.mkMatrix 2 1 [[1 # 2]; [0]] in
  contractive a
  /\ exists self,
       init a [1] None = Ok self
       /\ fst (landw 1 self) = Ok tt
       /\ coord (residuals (snd (landw 1 self))) 0 == 1
       /\ coord (residuals (snd (landw 1 self))) 1 == 25 # 16.
Proof.
  cbv zeta. split.
  - intros x Hx. destruct x as [|u [|v x]]; try discriminate.
    unfold squared_norm, normal_residual, big_sum, entry, coord.
    cbn [np.shape0 np.shape1 np.rows seq map nth length fold_right].
    rewrite !square_as_product. nra.
  - eexists. split; [reflexivity|]. repeat split; reflexivity.
Qed.

(** C2, amended. In exact arithmetic, when [I - At A] does not increase the
    norm of any parameter vector, the residual trace of an engine built from
    an n x p matrix and an n-vector never goes up:
    [residuals[m+1] <= residuals[m]] for every [m] with both entries
    computed. *)
Theorem residuals_non_increasing (a : np.matrix) (y : np.vector)
    (f : option np.vector) (self : landweber) (m : nat) (r r' : Q) :
  np.well_shaped a = true ->
  length y = np.shape0 a ->
  contractive a ->
  reachable a y f self ->
  nth_error (residuals self) m = Some r ->
  nth_error (residuals self) (S m) = Some r' ->
  r' <= r.
Proof.
  intros Hw Hy Hc Hr.
  destruct (reachable_tracks_residual a y f self Hw Hy Hc Hr)
    as (_ & _ & Hmono & _).
  apply Hmono.
Qed.

Lemma residuals_non_increasing_witness :
  coord (residuals (snd (landw 3 example_engine))) 2
  <= coord (residuals (snd (landw 3 example_engine))) 1.
Proof.
  apply (residuals_non_increasing example_matrix example_observation
           (Some example_signal) (snd (landw 3 example_engine)) 1).
  - reflexivity.
  - reflexivity.
  - exact example_matrix_contractive.
  - apply example_engine_reachable.
  - reflexivity.
  - reflexivity.
Defined.

(** C3. On every instance a caller can hold, whatever the shapes and whether
    earlier calls returned or raised: the residual trace has [iter + 1]
    entries; entry 0 is the squared norm of the observation vector; a call
    of [landw] only appends to the trace, as many entries as iterations it
    counted; and one iteration appends at most one entry. *)
Theorem residual_trace_append_only (a : np.matrix) (y : np.vector)
    (f : option np.vector) (self : landweber) :
  reachable a y f self ->
  Z.of_nat (length (residuals self)) = (iter self + 1)%Z
  /\ nth_error (residuals self) 0 = Some (squared_norm y)
  /\ (forall iter_num out self',
         landw iter_num self = (out, self') ->
         exists new,
           residuals self' = residuals self ++ new
           /\ Z.of_nat (length new) = (iter self' - iter self)%Z
           /\ (out = Ok tt -> length new = Z.to_nat iter_num))
  /\ (forall out self',
         landw_one_iteration self = (out, self') ->
         residuals self' = residuals self
         \/ exists v, residuals self' = residuals self ++ [v]).
Proof.
  intros Hr. split; [|split; [|split]].
  - revert self Hr.
    apply (reachable_ind_iteration a y f
      (fun s => Z.of_nat (length (residuals s)) = (iter s + 1)%Z)).
    + intros s [= <-]. reflexivity.
    + intros s out s' Hs H.
      destruct (iteration_effect _ _ _ H)
        as [_ [(_ & -> & -> & _)|([v ->] & -> & _)]]; [exact Hs|].
      rewrite length_app; simpl. lia.
  - revert self Hr.
    apply (reachable_ind_iteration a y f
      (fun s => nth_error (residuals s) 0 = Some (squared_norm y))).
    + intros s [= <-]. simpl. now rewrite sum_square_as_squared_norm.
    + intros s out s' Hs H.
      destruct (iteration_effect _ _ _ H)
        as [_ [(_ & -> & _)|([v ->] & _)]]; [exact Hs|].
      destruct (residuals s); [discriminate|exact Hs].
  - intros k out self' H. unfold landw in H.
    destruct (for_range_effect _ _ _ _ H) as (new & E1 & E2 & _ & E3).
    exists new. repeat split; auto. lia.
  - intros out self' H.
    destruct (iteration_effect _ _ _ H)
      as [_ [(_ & -> & _)|([v ->] & _)]]; eauto.
Qed.

Lemma residual_trace_append_only_witness :
  let self := snd (landw 2 example_engine) in
  Z.of_nat (length (residuals self)) = (iter self + 1)%Z
  /\ nth_error (residuals self) 0 = Some (squared_norm example_observation)
  /\ (forall iter_num out self',
         landw iter_num self = (out, self') ->
         exists new,
           residuals self' = residuals self ++ new
           /\ Z.of_nat (length new) = (iter self' - iter self)%Z
           /\ (out = Ok tt -> length new = Z.to_nat iter_num))
  /\ (forall out self',
         landw_one_iteration self = (out, self') ->
         residuals self' = residuals self
         \/ exists v, residuals self' = residuals self ++ [v]).
Proof.
  apply (residual_trace_append_only example_matrix example_observation
           (Some example_signal)).
  apply example_engine_reachable.
Defined.

(** C4. The code on the small engine: constructed with a true signal, the
    risk trace [mse] is empty while the residual trace holds the entry of
    iteration 0, and after two iterations they hold two and three entries.
    ([reachable_mse_shorter] and [reachable_mse_one_shorter] give the same
    gap on every engine built with a true signal.) *)
Theorem mse_trace_lags_residual_trace :
  (exists self,
      init example_matrix example_observation (Some example_signal) = Ok self
      /\ option_map (@length Q) (mse self) = Some 0%nat
      /\ length (residuals self) = 1%nat)
  /\ fst (landw 2 example_engine) = Ok tt
  /\ option_map (@length Q) (mse (snd (landw 2 example_engine)))
     = Some 2%nat
  /\ length (residuals (snd (landw 2 example_engine))) = 3%nat.
Proof.
  split; [exists example_engine|]; repeat split.
Qed.

(** C5. Two calls [landw(a)] then [landw(b)] with non-negative [a] and [b]
    give the outcome and the instance of the single call [landw(a + b)],
    and [landw(a)] is [a] calls of [landw(1)], each continuing from the
    instance the previous one left. *)
Theorem landw_incremental (a b : Z) (self : landweber) :
  (0 <= a)%Z -> (0 <= b)%Z ->
  (landw a ;; landw b) self = landw (a + b) self
  /\ landw a self = for_range (Z.to_nat a) (landw 1) self
  /\ landw a self = for_range (Z.to_nat a) landw_one_iteration self.
Proof.
  intros Ha Hb. split; [now apply landw_plus|]. split; [|reflexivity].
  unfold landw at 1. apply for_range_ext.
  intros s; symmetry; apply landw_one.
Qed.

Lemma landw_incremental_witness :
  (landw 5 ;; landw 5) example_engine = landw (5 + 5) example_engine
  /\ landw 5 example_engine
     = for_range (Z.to_nat 5) (landw 1) example_engine
  /\ landw 5 example_engine
     = for_range (Z.to_nat 5) landw_one_iteration example_engine.
Proof.
  apply (landw_incremental 5 5 example_engine); lia.
Defined.

(** C10. [landw(iter_num)] with [iter_num <= 0] returns normally and leaves
    every attribute of the instance as it was. *)
Theorem landw_nonpositive_is_noop (iter_num : Z) (self : landweber) :
  (iter_num <= 0)%Z -> landw iter_num self = (Ok tt, self).
Proof.
  intros H; unfold landw.
  replace (Z.to_nat iter_num) with 0%nat by lia. reflexivity.
Qed.

Lemma landw_nonpositive_is_noop_witness :
  landw (-3) example_engine = (Ok tt, example_engine).
Proof.
  apply (landw_nonpositive_is_noop (-3) example_engine). lia.
Defined.

(** C9. On an engine built with a true signal [f] of the matrix's column
    count, one iteration returns normally and appends to the [mse] trace the
    mean over the p coordinates of [(f_j - x_j)^2], where [x] is the new
    estimate. *)
Theorem mse_appends_mean_squared_deviation (a : np.matrix)
    (y f : np.vector) (self : landweber) :
  shapes_agree a y (Some f) = true ->
  reachable a y (Some f) self ->
  exists old self',
    mse self = Some old
    /\ landw_one_iteration self = (Ok tt, self')
    /\ mse self'
       = Some (old ++ [mean_squared_deviation f (landw_estimate self')])
    /\ length (landw_estimate self') = np.shape1 a.
Proof.
  intros Hs Hr.
  pose proof (reachable_consistent a y (Some f) self Hs Hr) as Hc.
  destruct (reachable_built_from a y (Some f) self Hr) as (Ha & Hy & Hf).
  destruct (consistent_iteration self Hc) as [E _].
  destruct (consistent_inv self Hc) as (_ & Hx & Hm).
  destruct Hm as [Hm|[old Hm]]; [congruence|].
  exists old, (iterated self). rewrite E.
  unfold iterated. rewrite Hf, Hm. unfold advanced; project.
  repeat split; auto.
  rewrite Ha. apply length_next_estimate. congruence.
Qed.

Lemma mse_appends_mean_squared_deviation_witness :
  exists old self',
    mse example_engine = Some old
    /\ landw_one_iteration example_engine = (Ok tt, self')
    /\ mse self'
       = Some (old ++ [mean_squared_deviation example_signal
                         (landw_estimate self')])
    /\ length (landw_estimate self') = np.shape1 example_matrix.
Proof.
  apply (mse_appends_mean_squared_deviation example_matrix
           example_observation example_signal example_engine).
  - reflexivity.
  - apply reach_init. reflexivity.
Defined.

(** After one iteration of the small engine the estimate is [(1/2, 2)]
    against the signal [(2, 2)]: the appended entry is the mean [9/8] of the
    squared deviations, not their sum [9/4]. *)
Lemma mse_entry_is_a_mean :
  exists v,
    mse (snd (landw 1 example_engine)) = Some [v]
    /\ v == 9 # 8
    /\ ~ v == squared_norm (vsub example_signal
                              (landw_estimate (snd (landw 1 example_engine)))).
Proof.
  eexists. split; [reflexivity|]. split; [reflexivity|discriminate].
Qed.



(** The blend at [t = 3/2] over the trace [4, 2, 1] is [5/4]; linear
    interpolation would give [3/2]. *)
Lemma interpolation_is_not_linear :
  exists v,
    calculate_interpolated_residual [4; 2; 1] (3 # 2) = Ok v
    /\ v == 5 # 4
    /\ ~ v == (1 # 2) * 2 + (1 # 2) * 1.
Proof.
  eexists. split; [reflexivity|]. split; [reflexivity|discriminate].
Qed.

(** At the integer index 2 the blend is the trace entry itself. *)
Lemma interpolation_at_integer_index :
  exists v,
    calculate_interpolated_residual [4; 2; 1] 2 = Ok v /\ v == 1.
Proof.
  eexists. split; reflexivity.
Qed.

(** C7. With an index [t] above the highest computed index [len - 1] the
    interpolation returns no value: it raises [IndexError], or
    [OverflowError] when [t] is so large ([2^63 <= t < 2^64]) that numpy
    cannot convert the index.  Run on an array of the interpreter, the call
    leaves every array and the engine as they were, for every index. *)
Theorem interpolation_out_of_range (w : world) (residuals : nat) (t : Q) :
  (Z.of_nat (length (arrays w residuals)) < 2 ^ 63)%Z ->
  inject_Z (Z.of_nat (length (arrays w residuals))) - 1 < t ->
  exists e,
    calculate_interpolated_residual (arrays w residuals) t = Raise e
    /\ calculate_interpolated_residual_call residuals t w = (Raise e, w)
    /\ (e = IndexError \/ e = OverflowError)
    /\ (t < inject_Z (2 ^ 63) -> e = IndexError)
    /\ (inject_Z (2 ^ 63) <= t -> t < inject_Z (2 ^ 64) ->
        e = OverflowError)
    /\ forall t',
         snd (calculate_interpolated_residual_call residuals t' w) = w.
Proof.
  intros Hlen H.
  pose proof (interpolation_above _ t Hlen H) as E.
  pose proof (Qfloor_le t) as Hf. pose proof (Qlt_floor t) as Hf'.
  rewrite inject_Z_plus in Hf'. change (inject_Z 1) with 1 in Hf'.
  destruct ((2 ^ 63 <=? Qfloor t)%Z && (Qfloor t <? 2 ^ 64)%Z) eqn:B.
  - apply andb_true_iff in B as [B1 B2].
    apply Z.leb_le in B1. apply Z.ltb_lt in B2.
    rewrite Zle_Qle in B1.
    exists OverflowError. rewrite interpolation_call_is_pure, E.
    repeat split; auto.
    + intros Ht. lra.
    + intros t'. now rewrite interpolation_call_is_pure.
  - exists IndexError. rewrite interpolation_call_is_pure, E.
    repeat split; auto.
    + intros H1 H2. exfalso.
      assert (A1 : (2 ^ 63 <= Qfloor t)%Z).
      { rewrite <- (Qfloor_Z (2 ^ 63)). now apply Qfloor_resp_le. }
      assert (A2 : (Qfloor t < 2 ^ 64)%Z).
      { rewrite Zlt_Qlt. lra. }
      apply andb_false_iff in B as [B|B];
        [apply Z.leb_gt in B|apply Z.ltb_ge in B]; lia.
    + intros t'. now rewrite interpolation_call_is_pure.
Qed.

Lemma interpolation_out_of_range_witness :
  calculate_interpolated_residual_call 0 (inject_Z (10 ^ 19)) example_world
  = (Raise OverflowError, example_world)
  /\ calculate_interpolated_residual [4; 2; 1] (inject_Z (10 ^ 19))
     = Raise OverflowError.
Proof.
  destruct (interpolation_out_of_range example_world 0 (inject_Z (10 ^ 19)))
    as (e & E1 & E2 & _ & _ & Ho & _).
  - vm_compute; reflexivity.
  - vm_compute; reflexivity.
  - assert (He : e = OverflowError)
      by (apply Ho; vm_compute; [discriminate|reflexivity]).
    rewrite He in E1, E2. split; [exact E2|exact E1].
Defined.

(** Just above the trace the exception is [IndexError]. *)
Lemma interpolation_just_above_the_trace :
  calculate_interpolated_residual_call 0 (5 # 2) example_world
  = (Raise IndexError, example_world).
Proof. reflexivity. Qed.

(** C8, the claim as stated fails: a 2 x 2 matrix with three observations is
    accepted by the constructor, and the mismatch is raised by the first
    iteration. *)
Lemma construction_accepts_mismatched_shapes :
  let a := np.mkMatrix 2 2 [[1; 0]; [0; 1]] in
  let y := [1; 2; 3] in
  shapes_agree a y None = false
  /\ (forall e, init a y None <> Raise e)
  /\ exists self,
       init a y None = Ok self
       /\ iter self = 0%Z
       /\ landw 1 self = (Raise ValueError, self).
Proof.
  cbv zeta. split; [reflexivity|]. split; [discriminate|].
  eexists; repeat split.
Qed.

(** C8, amended. The constructor checks no shape: for a 2-D matrix and 1-D
    vectors it returns an instance at iteration 0, whatever their lengths.
    A mismatch that numpy does not broadcast away is raised as [ValueError]
    by the first iteration. *)
Theorem construction_defers_shape_errors (a : np.matrix) (y : np.vector)
    (f : option np.vector) :
  np.well_shaped a = true ->
  unbroadcastable_mismatch a y f ->
  exists self,
    init a y f = Ok self
    /\ iter self = 0%Z
    /\ fst (landw_one_iteration self) = Raise ValueError
    /\ fst (landw 1 self) = Raise ValueError.
Proof.
  intros Hw Hm. eexists. split; [reflexivity|]. split; [reflexivity|].
  rewrite landw_one.
  match goal with |- ?P /\ ?P => cut P; [tauto|] end.
  destruct Hm as [[Hy H1]|(t & -> & Ht & Ht1 & Hp1)].
  - rewrite iteration_general; project.
    rewrite gradient_update_observation_mismatch; auto.
    unfold np.zeros; apply repeat_length.
  - match goal with |- fst (landw_one_iteration ?s) = _ =>
      destruct (iteration_outcome s)
        as [(e & E & ->)|(x' & r' & E1 & E2 & ->)]
    end.
    + simpl. f_equal. eapply gradient_update_raises; eauto.
    + apply gradient_update_Ok_length in E1 as [_ Hx'].
      revert Hx'. project. intros Hx'.
      unfold risk_update, advanced_to; project.
      unfold np.subtract. rewrite broadcast_mismatch; auto; congruence.
Qed.

Lemma construction_defers_shape_errors_witness :
  exists self,
    init example_matrix [1] (Some [1; 2; 3]) = Ok self
    /\ iter self = 0%Z
    /\ fst (landw_one_iteration self) = Raise ValueError
    /\ fst (landw 1 self) = Raise ValueError.
Proof.
  apply (construction_defers_shape_errors example_matrix [1]
           (Some [1; 2; 3])).
  - reflexivity.
  - right. exists [1; 2; 3]. simpl. repeat split; lia.
Defined.

(** A single observation is broadcast, so the gradient update runs; the
    signal of three coordinates then fails the risk update of the same
    iteration. *)
Lemma wrong_signal_under_broadcast_observation :
  init example_matrix [1] (Some [1; 2; 3]) = Ok doubly_wrong_engine
  /\ fst (landw 1 doubly_wrong_engine) = Raise ValueError
  /\ iter (snd (landw 1 doubly_wrong_engine)) = 1%Z.
Proof. repeat split. Qed.

(** * Further properties of the engine *)

Lemma risk_update_mse (self self' : landweber) (out : result unit) :
  risk_update self = (out, self') ->
  mse self' = mse self
  \/ exists old d,
       mse self = Some old
       /\ mse self' = Some (old ++ [np.mean (np.square d)]).
Proof.
  unfold risk_update.
  destruct (true_signal self) as [f|]; [|intros [= _ <-]; now left].
  destruct (np.subtract f (landw_estimate self)) as [d|];
    [|intros [= _ <-]; now left].
  destruct (mse self) as [old|] eqn:E; intros [= _ <-].
  - right. exists old, d. project. unfold np.append. auto.
  - left. now rewrite E.
Qed.

(** A property of the constructed instance that survives both a raised
    gradient update and a completed one holds of every reachable
    instance. *)
Lemma reachable_ind_outcome (a : np.matrix) (y : np.vector)
    (f : option np.vector) (P : landweber -> Prop) :
  (forall self, init a y f = Ok self -> P self) ->
  (forall self x' r' out self',
      P self ->
      gradient_update (input_matrix self) (output_variable self)
        (landw_estimate self) = Ok x' ->
      residual_update (input_matrix self) (output_variable self) x' = Ok r' ->
      risk_update (advanced_to x' r' self) = (out, self') ->
      P self') ->
  forall self, reachable a y f self -> P self.
Proof.
  intros Hinit Hstep. apply reachable_ind_iteration; [exact Hinit|].
  intros self out self' HP H.
  destruct (iteration_outcome self) as [(e & _ & E)|(x' & r' & E1 & E2 & E)];
    rewrite E in H.
  - now injection H as _ <-.
  - eapply Hstep; eauto.
Qed.

Lemma reachable_shapes (a : np.matrix) (y : np.vector)
    (f : option np.vector) (self : landweber) :
  reachable a y f self ->
  built_from a y f self
  /\ sample_size self = np.shape0 a
  /\ para_size self = np.shape1 a
  /\ length (landw_estimate self) = np.shape1 a
  /\ (0 <= iter self)%Z.
Proof.
  apply (reachable_ind_outcome a y f
    (fun s => built_from a y f s
              /\ sample_size s = np.shape0 a
              /\ para_size s = np.shape1 a
              /\ length (landw_estimate s) = np.shape1 a
              /\ (0 <= iter s)%Z)).
  - intros s [= <-]. unfold built_from; project.
    repeat split; try reflexivity; try lia.
    unfold np.zeros. apply repeat_length.
  - intros s x' r' out s' ((Ha & Hy & Hf) & Hn & Hp & Hx & Hi) E1 E2 H.
    apply risk_update_frame in H
      as ((F1 & F2 & F3 & F4 & F5) & F6 & F7 & _).
    revert F1 F2 F3 F4 F5 F6 F7. unfold advanced_to; project.
    intros F1 F2 F3 F4 F5 F6 F7.
    apply gradient_update_Ok_length in E1 as [_ E1].
    unfold built_from. rewrite F1, F2, F3, F4, F5, F6, F7.
    repeat split; try congruence. lia.
Qed.

Lemma for_range_raises (n : nat) (body : method unit) (self self' : landweber)
    (e : exn) :
  body self = (Raise e, self') ->
  for_range (S n) body self = (Raise e, self').
Proof. intros H; simpl; unfold bind. now rewrite H. Qed.

Lemma zeros_image_vanishes (a : np.matrix) (i : nat) :
  big_sum (np.shape1 a)
    (fun k => entry a i k * coord (np.zeros (np.shape1 a)) k) == 0.
Proof.
  rewrite <- (sum_over_zero (seq 0 (np.shape1 a))).
  apply (sum_over_ext (seq 0 (np.shape1 a))). intros k _.
  unfold coord, np.zeros. rewrite nth_repeat. ring.
Qed.

Lemma reachable_residual_in_step (a : np.matrix) (y : np.vector)
    (f : option np.vector) (self : landweber) :
  np.well_shaped a = true -> length y = np.shape0 a ->
  reachable a y f self -> residual_in_step a y self.
Proof.
  intros Hw Hy.
  apply (reachable_ind_iteration a y f (residual_in_step a y)).
  - intros s [= <-]. unfold residual_in_step, built_from; project.
    repeat split; auto.
    + unfold np.zeros; apply repeat_length.
    + intros i _. rewrite zeros_image_vanishes. ring.
    + now exists [].
  - intros s out s' ((Ha & Hb & _) & Hx & _) H.
    rewrite iteration_on_matching_shapes in H by (rewrite ?Ha, ?Hb; auto).
    apply risk_update_frame in H
      as ((E1 & E2 & _) & _ & Ex & Ev & Er).
    revert E1 E2 Ex Ev Er. unfold advanced; project. rewrite Ha, Hb.
    intros E1 E2 Ex Ev Er. unfold residual_in_step, built_from.
    rewrite E1, E2, Ex, Ev, Er.
    assert (Hx' : length (next_estimate a y (landw_estimate s))
                  = np.shape1 a) by now apply length_next_estimate.
    destruct (well_shaped_rows a Hw) as [Hn _].
    repeat split; auto.
    + rewrite length_residual_of; lia.
    + intros i Hi. now rewrite coord_residual_of.
    + now exists (residuals s).
Qed.

Lemma last_snoc (front : list Q) (v : Q) : last (front ++ [v]) 0 = v.
Proof. apply last_last. Qed.

Lemma for_range_consistent (n : nat) (self : landweber) :
  consistent self = true ->
  exists self',
    for_range n landw_one_iteration self = (Ok tt, self')
    /\ consistent self' = true
    /\ iter self' = (iter self + Z.of_nat n)%Z.
Proof.
  revert self; induction n as [|n IH]; intros self Hc.
  - exists self. simpl. repeat split; auto. lia.
  - destruct (consistent_iteration self Hc) as [E Hc'].
    destruct (IH _ Hc') as (self' & E' & Hc'' & Hi).
    exists self'. simpl. unfold bind. rewrite E, E'.
    repeat split; auto. rewrite Hi.
    unfold iterated. destruct (true_signal self); try destruct (mse self);
      unfold advanced; project; lia.
Qed.

(** ** The identity design *)

Lemma sum_over_app (l m : list nat) (g : nat -> Q) :
  sum_over (l ++ m) g == sum_over l g + sum_over m g.
Proof.
  unfold sum_over; induction l as [|i l IH]; simpl; [ring|].
  rewrite IH; ring.
Qed.

Lemma sum_over_delta (p i : nat) (g : nat -> Q) :
  (i < p)%nat ->
  sum_over (seq 0 p) (fun k => (if (i =? k)%nat then 1 else 0) * g k)
  == g i.
Proof.
  induction p as [|p IH]; intros Hi; [lia|].
  rewrite seq_S, sum_over_app. simpl seq. unfold sum_over at 2. simpl.
  destruct (Nat.eq_dec i p) as [->|Hne].
  - rewrite Nat.eqb_refl.
    rewrite (sum_over_ext _ _ (fun _ => 0)).
    + rewrite sum_over_zero. ring.
    + intros k Hk. apply in_seq in Hk.
      rewrite (proj2 (Nat.eqb_neq p k)) by lia. ring.
  - rewrite IH by lia. rewrite (proj2 (Nat.eqb_neq i p)) by exact Hne. ring.
Qed.

Lemma eye_well_shaped (p : nat) : np.well_shaped (np.eye p) = true.
Proof.
  unfold np.well_shaped, np.eye; simpl.
  rewrite length_map, length_seq, Nat.eqb_refl. simpl.
  apply forallb_forall. intros r Hr. apply in_map_iff in Hr as (i & <- & _).
  rewrite length_map, length_seq. apply Nat.eqb_refl.
Qed.

Lemma entry_eye (p i k : nat) :
  (i < p)%nat -> (k < p)%nat ->
  entry (np.eye p) i k = if (i =? k)%nat then 1 else 0.
Proof.
  intros Hi Hk. unfold entry, np.eye; simpl.
  rewrite (nth_indep _ [] ((fun i => map (fun j => if (i =? j)%nat
                                                  then 1 else 0)
                                        (seq 0 p)) 0%nat))
    by (now rewrite length_map, length_seq).
  rewrite (map_nth (fun i => map (fun j => if (i =? j)%nat then 1 else 0)
                                 (seq 0 p))).
  rewrite seq_nth by exact Hi. simpl.
  fold (coord (map (fun j => if (i =? j)%nat then 1 else 0) (seq 0 p)) k).
  now rewrite coord_map_seq.
Qed.

Lemma eye_image (p i : nat) (x : nat -> Q) :
  (i < p)%nat ->
  big_sum p (fun k => entry (np.eye p) i k * x k) == x i.
Proof.
  intros Hi. rewrite <- (sum_over_delta p i x Hi).
  apply (sum_over_ext (seq 0 p)). intros k Hk. apply in_seq in Hk.
  rewrite entry_eye by lia. reflexivity.
Qed.

Lemma eye_back (p j : nat) (u : nat -> Q) :
  (j < p)%nat ->
  big_sum p (fun i => entry (np.eye p) i j * u i) == u j.
Proof.
  intros Hj. rewrite <- (sum_over_delta p j u Hj).
  apply (sum_over_ext (seq 0 p)). intros i Hi. apply in_seq in Hi.
  rewrite entry_eye by lia. now rewrite Nat.eqb_sym.
Qed.

Lemma eye_gradient_rule (p : nat) (y x : np.vector) (j : nat) :
  (j < p)%nat ->
  coord (gradient_rule (np.eye p) y x) j == coord y j.
Proof.
  intros Hj. unfold gradient_rule. simpl np.shape1. simpl np.shape0.
  rewrite coord_map_seq by exact Hj.
  rewrite (eye_back p j
             (fun i => coord y i
                       - big_sum p (fun k => entry (np.eye p) i k
                                             * coord x k))) by exact Hj.
  rewrite (eye_image p j (coord x)) by exact Hj. ring.
Qed.

(** ** Estimates that agree coordinate by coordinate *)




(** One completed gradient step on matching shapes, whatever the risk update
    does afterwards. *)
Lemma iteration_on_matching_observation (a : np.matrix) (y : np.vector)
    (self self' : landweber) (out : result unit) :
  np.well_shaped a = true -> length y = np.shape0 a ->
  input_matrix self = a -> output_variable self = y ->
  length (landw_estimate self) = np.shape1 a ->
  landw_one_iteration self = (out, self') ->
  input_matrix self' = a
  /\ output_variable self' = y
  /\ landw_estimate self' = gradient_rule a y (landw_estimate self)
  /\ length (landw_estimate self') = np.shape1 a
  /\ iter self' = (iter self + 1)%Z
  /\ residuals self'
     = residuals self ++ [squared_norm (residual_of a y (landw_estimate self'))].
Proof.
  intros Hw Hy Ha Hb Hx H.
  rewrite iteration_on_matching_shapes in H by (rewrite ?Ha, ?Hb; auto).
  apply risk_update_frame in H as ((E1 & E2 & _) & Ei & Ex & _ & Er).
  revert E1 E2 Ei Ex Er. unfold advanced; project. rewrite Ha, Hb.
  intros E1 E2 Ei Ex Er.
  rewrite E1, E2, Ei, Ex, Er, sum_square_as_squared_norm.
  rewrite <- next_estimate_gradient_rule by auto.
  unfold np.append. repeat split; auto.
  now apply length_next_estimate.
Qed.

(** ** Properties beyond the claims *)

(** X1. One iteration is safe against exceptions of the gradient update: either
    it raises and the instance is untouched, or the estimate, the residual
    vector, the residual trace and the counter are all updated together;
    only the risk update can fail after that. *)
Theorem iteration_never_half_updates (self self' : landweber)
    (out : result unit) :
  landw_one_iteration self = (out, self') ->
  (self' = self /\ exists e, out = Raise e)
  \/ (gradient_update (input_matrix self) (output_variable self)
        (landw_estimate self) = Ok (landw_estimate self')
      /\ residual_update (input_matrix self) (output_variable self)
           (landw_estimate self') = Ok (residual_vector self')
      /\ residuals self'
         = residuals self ++ [np.sum (np.square (residual_vector self'))]
      /\ iter self' = (iter self + 1)%Z
      /\ length (landw_estimate self') = np.shape1 (input_matrix self)).
Proof.
  intros H.
  destruct (iteration_outcome self) as [(e & _ & E)|(x' & r' & E1 & E2 & E)];
    rewrite E in H.
  - left. injection H as <- <-. eauto.
  - right. apply risk_update_frame in H as (_ & F1 & F2 & F3 & F4).
    revert F1 F2 F3 F4. unfold advanced_to; project.
    intros -> -> -> ->. unfold np.append.
    apply gradient_update_Ok_length in E1 as E3. tauto.
Qed.

Lemma iteration_never_half_updates_witness :
  let self' := snd (landw_one_iteration example_engine) in
  (self' = example_engine
   /\ exists e, fst (landw_one_iteration example_engine) = Raise e)
  \/ (gradient_update example_matrix example_observation [0; 0]
      = Ok (landw_estimate self')
      /\ residual_update example_matrix example_observation
           (landw_estimate self') = Ok (residual_vector self')
      /\ residuals self'
         = residuals example_engine
           ++ [np.sum (np.square (residual_vector self'))]
      /\ iter self' = (iter example_engine + 1)%Z
      /\ length (landw_estimate self') = np.shape1 example_matrix).
Proof.
  apply (iteration_never_half_updates example_engine
           (snd (landw_one_iteration example_engine))
           (fst (landw_one_iteration example_engine))).
  apply surjective_pairing.
Defined.

(** X2. Whatever the shapes and whatever calls were made, an instance keeps the
    matrix, observations and true signal it was built with, [sample_size]
    and [para_size] are the two dimensions of the matrix, the estimate has
    [para_size] coordinates, and the counter is not negative. *)
Theorem instance_keeps_its_model (a : np.matrix) (y : np.vector)
    (f : option np.vector) (self : landweber) :
  reachable a y f self ->
  input_matrix self = a
  /\ output_variable self = y
  /\ true_signal self = f
  /\ sample_size self = np.shape0 a
  /\ para_size self = np.shape1 a
  /\ length (landw_estimate self) = para_size self
  /\ (0 <= iter self)%Z.
Proof.
  intros H.
  destruct (reachable_shapes a y f self H)
    as ((Ha & Hy & Hf) & Hn & Hp & Hx & Hi).
  repeat split; congruence.
Qed.

Lemma instance_keeps_its_model_witness :
  let self := snd (landw 3 example_engine) in
  input_matrix self = example_matrix
  /\ output_variable self = example_observation
  /\ true_signal self = Some example_signal
  /\ sample_size self = np.shape0 example_matrix
  /\ para_size self = np.shape1 example_matrix
  /\ length (landw_estimate self) = para_size self
  /\ (0 <= iter self)%Z.
Proof.
  apply (instance_keeps_its_model example_matrix example_observation
           (Some example_signal)).
  apply example_engine_reachable.
Defined.

(** X4. When the number of observations differs from the number of rows and
    from 1, the engine never leaves iteration 0: every call of [landw] with
    a positive count raises [ValueError] and leaves the instance as the
    constructor built it. *)
Theorem observation_mismatch_blocks_the_engine (a : np.matrix)
    (y : np.vector) (f : option np.vector) (self : landweber) :
  np.well_shaped a = true ->
  length y <> np.shape0 a ->
  length y <> 1%nat ->
  reachable a y f self ->
  init a y f = Ok self
  /\ forall iter_num, (1 <= iter_num)%Z ->
       landw iter_num self = (Raise ValueError, self).
Proof.
  intros Hw Hy H1 Hr.
  assert (Hstep : forall s, init a y f = Ok s ->
            landw_one_iteration s = (Raise ValueError, s)).
  { intros s [= <-]. rewrite iteration_general; project.
    rewrite gradient_update_observation_mismatch; auto.
    unfold np.zeros; apply repeat_length. }
  assert (Hinit : init a y f = Ok self).
  { revert self Hr.
    apply (reachable_ind_iteration a y f (fun s => init a y f = Ok s)).
    - auto.
    - intros s out s' Hs H. rewrite (Hstep s Hs) in H.
      now injection H as _ <-. }
  split; [exact Hinit|].
  intros k Hk. unfold landw.
  destruct (Z.to_nat k) as [|n] eqn:E; [lia|].
  apply for_range_raises. now apply Hstep.
Qed.

Lemma observation_mismatch_blocks_the_engine_witness :
  let self := snd (landw 1 (snd (landw 4 wrong_observation_engine))) in
  init example_matrix [1; 2; 3] None = Ok self
  /\ forall iter_num, (1 <= iter_num)%Z ->
       landw iter_num self = (Raise ValueError, self).
Proof.
  apply (observation_mismatch_blocks_the_engine example_matrix
           [1; 2; 3] None).
  - reflexivity.
  - simpl; lia.
  - simpl; lia.
  - eapply reach_landw; [eapply reach_landw|].
    + apply reach_init. reflexivity.
    + apply surjective_pairing.
    + apply surjective_pairing.
Defined.

(** X5. When the true signal has neither the length of the estimate nor length
    1 (and the estimate is not of length 1), a call of [landw] with a
    positive count raises [ValueError] in the risk update, after the first
    iteration has already been carried out: the estimate has moved by the
    gradient rule, the residual trace has one more entry, the counter is one
    higher, and [mse] is still empty. *)
Theorem signal_mismatch_raises_after_updating (a : np.matrix)
    (y t : np.vector) (self : landweber) (iter_num : Z) :
  np.well_shaped a = true ->
  length y = np.shape0 a ->
  length t <> np.shape1 a ->
  length t <> 1%nat ->
  np.shape1 a <> 1%nat ->
  reachable a y (Some t) self ->
  (1 <= iter_num)%Z ->
  exists self',
    landw iter_num self = (Raise ValueError, self')
    /\ iter self' = (iter self + 1)%Z
    /\ landw_estimate self' = gradient_rule a y (landw_estimate self)
    /\ length (residuals self') = S (length (residuals self))
    /\ mse self = Some []
    /\ mse self' = Some [].
Proof.
  intros Hw Hy Ht Ht1 Hp1 Hr Hk.
  assert (Hstep : forall s,
            built_from a y (Some t) s ->
            length (landw_estimate s) = np.shape1 a ->
            landw_one_iteration s = (Raise ValueError, advanced s)).
  { intros s (Ha & Hb & Hf) Hx.
    rewrite iteration_on_matching_shapes by (rewrite ?Ha, ?Hb; auto).
    unfold risk_update. unfold advanced at 1 2; project. rewrite Hf, Ha, Hb.
    unfold np.subtract. rewrite broadcast_mismatch; auto;
      rewrite length_next_estimate; auto. }
  assert (Hmse : mse self = Some []).
  { revert self Hr.
    apply (reachable_ind_iteration a y (Some t)
             (fun s => reachable a y (Some t) s /\ mse s = Some [])).
    - intros s E. split; [now apply reach_init|].
      injection E as <-. reflexivity.
    - intros s out s' [Hr Hm] H. split.
      + apply (reach_landw a y (Some t) s 1 out s' Hr).
        now rewrite landw_one.
      + destruct (reachable_shapes _ _ _ _ Hr) as (Hb & _ & _ & Hx & _).
        rewrite (Hstep s Hb Hx) in H. injection H as _ <-.
        unfold advanced; project. exact Hm. }
  destruct (reachable_shapes _ _ _ _ Hr) as (Hb & _ & _ & Hx & _).
  destruct Hb as (Ha & Hb & Hf).
  exists (advanced self). split.
  - unfold landw. destruct (Z.to_nat iter_num) as [|n] eqn:E; [lia|].
    apply for_range_raises. apply Hstep; unfold built_from; auto.
  - unfold advanced; project. rewrite Ha, Hb.
    rewrite next_estimate_gradient_rule by auto.
    unfold np.append. rewrite length_app. simpl.
    repeat split; auto. lia.
Qed.

Lemma signal_mismatch_raises_after_updating_witness :
  exists self',
    landw 3 wrong_signal_engine = (Raise ValueError, self')
    /\ iter self' = (iter wrong_signal_engine + 1)%Z
    /\ landw_estimate self'
       = gradient_rule example_matrix example_observation
           (landw_estimate wrong_signal_engine)
    /\ length (residuals self') = S (length (residuals wrong_signal_engine))
    /\ mse wrong_signal_engine = Some []
    /\ mse self' = Some [].
Proof.
  apply (signal_mismatch_raises_after_updating example_matrix
           example_observation [1; 2; 3] wrong_signal_engine 3).
  - reflexivity.
  - reflexivity.
  - simpl; lia.
  - simpl; lia.
  - simpl; lia.
  - apply reach_init. reflexivity.
  - lia.
Defined.

(** X6. On an engine built with the documented shapes a call of [landw] always
    returns normally, and the counter goes up by the requested number of
    iterations (by nothing when the request is not positive). *)
Theorem landw_returns_on_documented_shapes (a : np.matrix) (y : np.vector)
    (f : option np.vector) (self : landweber) (iter_num : Z) :
  shapes_agree a y f = true ->
  reachable a y f self ->
  exists self',
    landw iter_num self = (Ok tt, self')
    /\ iter self' = (iter self + Z.max 0 iter_num)%Z
    /\ Z.of_nat (length (residuals self'))
       = (Z.of_nat (length (residuals self)) + Z.max 0 iter_num)%Z.
Proof.
  intros Hs Hr.
  pose proof (reachable_consistent a y f self Hs Hr) as Hc.
  destruct (for_range_consistent (Z.to_nat iter_num) self Hc)
    as (self' & E & _ & Hi).
  exists self'. split; [exact E|]. split; [lia|].
  destruct (for_range_effect _ _ _ _ E) as (new & E1 & _ & _ & E3).
  rewrite E1, length_app, (E3 eq_refl). lia.
Qed.

Lemma landw_returns_on_documented_shapes_witness :
  exists self',
    landw 4 example_engine = (Ok tt, self')
    /\ iter self' = (iter example_engine + Z.max 0 4)%Z
    /\ Z.of_nat (length (residuals self'))
       = (Z.of_nat (length (residuals example_engine)) + Z.max 0 4)%Z.
Proof.
  apply (landw_returns_on_documented_shapes example_matrix
           example_observation (Some example_signal) example_engine 4).
  - reflexivity.
  - apply reach_init. reflexivity.
Defined.

(** X7. On an engine built with a true signal of the documented length, the
    risk trace has as many entries as iterations were made, and from the
    first iteration on its last entry is the mean squared deviation between
    the true signal and the current estimate. *)
Theorem mse_follows_the_estimate (a : np.matrix) (y f : np.vector)
    (self : landweber) :
  shapes_agree a y (Some f) = true ->
  reachable a y (Some f) self ->
  exists l,
    mse self = Some l
    /\ Z.of_nat (length l) = iter self
    /\ (l <> [] ->
        last l 0 = mean_squared_deviation f (landw_estimate self)).
Proof.
  intros Hs Hr.
  assert (P : consistent self = true
              /\ true_signal self = Some f
              /\ exists l,
                   mse self = Some l
                   /\ Z.of_nat (length l) = iter self
                   /\ (l <> [] ->
                       last l 0
                       = mean_squared_deviation f (landw_estimate self))).
  { revert self Hr.
    apply (reachable_ind_iteration a y (Some f)
      (fun s => consistent s = true
                /\ true_signal s = Some f
                /\ exists l,
                     mse s = Some l
                     /\ Z.of_nat (length l) = iter s
                     /\ (l <> [] ->
                         last l 0
                         = mean_squared_deviation f (landw_estimate s)))).
    - intros s E. split; [now apply (init_consistent a y (Some f))|].
      injection E as <-. split; [reflexivity|].
      exists []. repeat split. congruence.
    - intros s out s' (Hc & Hf & l & Hl & Hlen & _) H.
      destruct (consistent_iteration s Hc) as [E Hc'].
      rewrite E in H. injection H as _ <-. split; [exact Hc'|].
      unfold iterated. rewrite Hf, Hl. unfold advanced; project.
      split; [exact Hf|]. eexists; split; [reflexivity|].
      rewrite length_app, last_snoc. simpl. split; [lia|reflexivity]. }
  tauto.
Qed.

Lemma mse_follows_the_estimate_witness :
  let self := snd (landw 3 example_engine) in
  exists l,
    mse self = Some l
    /\ Z.of_nat (length l) = iter self
    /\ (l <> [] ->
        last l 0 = mean_squared_deviation example_signal
                     (landw_estimate self)).
Proof.
  apply (mse_follows_the_estimate example_matrix example_observation
           example_signal).
  - reflexivity.
  - apply example_engine_reachable.
Defined.

(** X8. The attribute [mse] exists exactly on the engines built with a true
    signal, whatever the shapes and whatever calls were made. *)
Theorem mse_exists_iff_true_signal (a : np.matrix) (y : np.vector)
    (f : option np.vector) (self : landweber) :
  reachable a y f self ->
  (mse self = None <-> f = None).
Proof.
  apply (reachable_ind_outcome a y f (fun s => mse s = None <-> f = None)).
  - intros s [= <-]. project. destruct f; split; congruence.
  - intros s x' r' out s' Hm _ _ H.
    apply risk_update_mse in H. revert H. unfold advanced_to; project.
    intros [E|(old & d & E1 & E2)].
    + now rewrite E.
    + rewrite E2. rewrite E1 in Hm. split; [discriminate|].
      intros Hf. apply Hm in Hf. discriminate.
Qed.

Lemma mse_exists_iff_true_signal_witness :
  mse (snd (landw 2 example_engine)) = None <-> Some example_signal = None.
Proof.
  apply (mse_exists_iff_true_signal example_matrix example_observation
           (Some example_signal)).
  apply example_engine_reachable.
Defined.

(** X9. On an n x p matrix with n observations: the stored residual vector has
    the coordinates of [y - A x] for the current estimate [x], and the last
    entry of the residual trace is its squared norm. *)
Theorem residual_trace_follows_the_estimate (a : np.matrix) (y : np.vector)
    (f : option np.vector) (self : landweber) :
  np.well_shaped a = true ->
  length y = np.shape0 a ->
  reachable a y f self ->
  length (residual_vector self) = np.shape0 a
  /\ (forall i, (i < np.shape0 a)%nat ->
        coord (residual_vector self) i
        == coord y i
           - big_sum (np.shape1 a)
               (fun k => entry a i k * coord (landw_estimate self) k))
  /\ last (residuals self) 0 = np.sum (np.square (residual_vector self))
  /\ last (residuals self) 0
     == big_sum (np.shape0 a) (fun i =>
          (coord y i
           - big_sum (np.shape1 a)
               (fun k => entry a i k * coord (landw_estimate self) k)) ^ 2).
Proof.
  intros Hw Hy Hr.
  destruct (reachable_residual_in_step a y f self Hw Hy Hr)
    as (_ & _ & Hl & Hc & front & Hres).
  assert (E : last (residuals self) 0
              = np.sum (np.square (residual_vector self)))
    by (rewrite Hres; apply last_snoc).
  repeat split; auto.
  rewrite E, sum_square_as_squared_norm. unfold squared_norm. rewrite Hl.
  apply (sum_over_ext (seq 0 (np.shape0 a))). intros i Hi.
  apply in_seq in Hi. rewrite Hc by lia. reflexivity.
Qed.

Lemma residual_trace_follows_the_estimate_witness :
  let self := snd (landw 3 example_engine) in
  length (residual_vector self) = np.shape0 example_matrix
  /\ (forall i, (i < np.shape0 example_matrix)%nat ->
        coord (residual_vector self) i
        == coord example_observation i
           - big_sum (np.shape1 example_matrix)
               (fun k => entry example_matrix i k
                         * coord (landw_estimate self) k))
  /\ last (residuals self) 0 = np.sum (np.square (residual_vector self))
  /\ last (residuals self) 0
     == big_sum (np.shape0 example_matrix) (fun i =>
          (coord example_observation i
           - big_sum (np.shape1 example_matrix)
               (fun k => entry example_matrix i k
                         * coord (landw_estimate self) k)) ^ 2).
Proof.
  apply (residual_trace_follows_the_estimate example_matrix
           example_observation (Some example_signal)).
  - reflexivity.
  - reflexivity.
  - apply example_engine_reachable.
Defined.

(** X10. With the identity matrix as design (the setting of
    [test_elementary_estimation]) the engine recovers the observations in
    one iteration: from the first iteration on, the estimate equals the
    observation vector coordinate by coordinate, and every later entry of
    the residual trace is zero. *)
Theorem identity_design_recovers_the_observation (p : nat) (y : np.vector)
    (f : option np.vector) (self : landweber) :
  length y = p ->
  reachable (np.eye p) y f self ->
  (1 <= iter self)%Z ->
  (forall j, (j < p)%nat -> coord (landw_estimate self) j == coord y j)
  /\ forall m r, nth_error (residuals self) (S m) = Some r -> r == 0.
Proof.
  intros Hy Hr.
  assert (P : built_from (np.eye p) y (true_signal self) self
              /\ length (landw_estimate self) = p
              /\ Z.of_nat (length (residuals self)) = (iter self + 1)%Z
              /\ ((1 <= iter self)%Z ->
                  forall j, (j < p)%nat ->
                    coord (landw_estimate self) j == coord y j)
              /\ forall m r,
                   nth_error (residuals self) (S m) = Some r -> r == 0).
  { revert self Hr.
    apply (reachable_ind_iteration (np.eye p) y f
      (fun s => built_from (np.eye p) y (true_signal s) s
                /\ length (landw_estimate s) = p
                /\ Z.of_nat (length (residuals s)) = (iter s + 1)%Z
                /\ ((1 <= iter s)%Z ->
                    forall j, (j < p)%nat ->
                      coord (landw_estimate s) j == coord y j)
                /\ forall m r,
                     nth_error (residuals s) (S m) = Some r -> r == 0)).
    - intros s [= <-]. unfold built_from; project.
      repeat split; try reflexivity.
      + unfold np.zeros; apply repeat_length.
      + lia.
      + intros m r H. destruct m; discriminate.
    - intros s out s' ((Ha & Hb & _) & Hx & Hl & _ & Hz) H.
      destruct (iteration_on_matching_observation (np.eye p) y s s' out)
        as (E1 & E2 & E3 & E4 & E5 & E6); auto using eye_well_shaped.
      assert (Hest : forall j, (j < p)%nat ->
                coord (landw_estimate s') j == coord y j).
      { intros j Hj. rewrite E3. now apply eye_gradient_rule. }
      unfold built_from. repeat split; auto.
      + rewrite E6, length_app. simpl. lia.
      + intros m r. rewrite E6. intros Hm.
        destruct (Nat.lt_ge_cases (S m) (length (residuals s))) as [Hlt|Hge].
        * rewrite nth_error_app1 in Hm by exact Hlt. eapply Hz; eauto.
        * assert (Hlen : (S m < length (residuals s ++ [squared_norm
                   (residual_of (np.eye p) y (landw_estimate s'))]))%nat)
            by (apply nth_error_Some; congruence).
          rewrite length_app in Hlen; simpl in Hlen.
          rewrite nth_error_app2 in Hm by exact Hge.
          replace (S m - length (residuals s))%nat with 0%nat in Hm by lia.
          injection Hm as <-.
          rewrite (squared_norm_residual_of (np.eye p) y
                     (eye_well_shaped p) Hy) by exact E4.
          simpl np.shape0. simpl np.shape1.
          rewrite <- (sum_over_zero (seq 0 p)).
          apply (sum_over_ext (seq 0 p)). intros i Hi. apply in_seq in Hi.
          rewrite (eye_image p i (coord (landw_estimate s'))) by lia.
          rewrite Hest by lia. ring. }
  intros Hi. destruct P as (_ & _ & _ & He & Hz). split; auto.
Qed.

Lemma identity_design_recovers_the_observation_witness :
  let self := snd (landw 2 identity_engine) in
  (forall j, (j < 2)%nat -> coord (landw_estimate self) j == coord [3; 5] j)
  /\ forall m r, nth_error (residuals self) (S m) = Some r -> r == 0.
Proof.
  apply (identity_design_recovers_the_observation 2 [3; 5] None
           (snd (landw 2 identity_engine))).
  - reflexivity.
  - eapply reach_landw; [apply reach_init; reflexivity|].
    apply surjective_pairing.
  - vm_compute. discriminate.
Defined.



(** ** A single observation against several rows *)

Lemma zip_with_repeat (g : Q -> Q -> Q) (c : Q) (v : np.vector) :
  np.zip_with g (repeat c (length v)) v = map (g c) v.
Proof.
  induction v as [|b v IH]; simpl; [reflexivity|]. now rewrite IH.
Qed.

Lemma broadcast_scalar_left (g : Q -> Q -> Q) (c : Q) (v : np.vector) :
  np.broadcast g [c] v = Ok (map (g c) v).
Proof.
  unfold np.broadcast. simpl length.
  destruct (1 =? length v)%nat eqn:E.
  - apply Nat.eqb_eq in E. destruct v as [|b [|b' v]]; try discriminate.
    reflexivity.
  - reflexivity.
Qed.

Lemma broadcast_constant_left (g : Q -> Q -> Q) (c : Q) (v : np.vector) :
  np.broadcast g (repeat c (length v)) v = Ok (map (g c) v).
Proof.
  rewrite broadcast_same_length by apply repeat_length.
  now rewrite zip_with_repeat.
Qed.

Lemma gradient_update_scalar_observation (a : np.matrix) (c : Q)
    (x : np.vector) :
  length (np.rows a) = np.shape0 a ->
  gradient_update a [c] x = gradient_update a (repeat c (np.shape0 a)) x.
Proof.
  intros Hn. unfold gradient_update, rbind.
  destruct (np.dot a x) as [fitted|] eqn:E; [|reflexivity].
  apply dot_Ok_inv in E as [-> _].
  unfold np.subtract. rewrite broadcast_scalar_left.
  rewrite <- Hn, <- (length_mat_vec a x), broadcast_constant_left.
  reflexivity.
Qed.

Lemma residual_update_scalar_observation (a : np.matrix) (c : Q)
    (x : np.vector) :
  length (np.rows a) = np.shape0 a ->
  residual_update a [c] x = residual_update a (repeat c (np.shape0 a)) x.
Proof.
  intros Hn. unfold residual_update, rbind.
  destruct (np.dot a x) as [fitted|] eqn:E; [|reflexivity].
  apply dot_Ok_inv in E as [-> _].
  unfold np.subtract. rewrite broadcast_scalar_left.
  rewrite <- Hn, <- (length_mat_vec a x), broadcast_constant_left.
  reflexivity.
Qed.

Lemma advanced_to_same_run (x' r' : np.vector) (s1 s2 : landweber) :
  same_run s1 s2 -> same_run (advanced_to x' r' s1) (advanced_to x' r' s2).
Proof.
  unfold same_run, advanced_to; project.
  intros (E1 & E2 & E3 & E4 & E5 & E6 & E7). unfold np.append.
  rewrite E1, E2, E3, E5, !length_app, E7. repeat split; auto.
  destruct (residuals s1) as [|h1 l1], (residuals s2) as [|h2 l2];
    simpl in *; try discriminate; congruence.
Qed.

Lemma risk_update_same_run (s1 s2 s1' s2' : landweber)
    (o1 o2 : result unit) :
  same_run s1 s2 ->
  risk_update s1 = (o1, s1') -> risk_update s2 = (o2, s2') ->
  o1 = o2 /\ same_run s1' s2'
  /\ output_variable s1' = output_variable s1
  /\ output_variable s2' = output_variable s2.
Proof.
  unfold same_run, risk_update.
  intros (E1 & E2 & E3 & E4 & E5 & E6 & E7). rewrite <- E2, <- E4, <- E5.
  destruct (true_signal s1) as [t|] eqn:Et.
  - destruct (np.subtract t (landw_estimate s1)) as [d|].
    + destruct (mse s1) as [old|] eqn:Em; intros [= <- <-] [= <- <-];
        project; repeat split; auto; congruence.
    + intros [= <- <-] [= <- <-]. repeat split; auto; congruence.
  - intros [= <- <-] [= <- <-]. repeat split; auto; congruence.
Qed.

Lemma iteration_scalar_observation (a : np.matrix) (c : Q)
    (s1 s2 s1' s2' : landweber) (o1 o2 : result unit) :
  length (np.rows a) = np.shape0 a ->
  input_matrix s1 = a ->
  output_variable s1 = [c] ->
  output_variable s2 = repeat c (np.shape0 a) ->
  same_run s1 s2 ->
  landw_one_iteration s1 = (o1, s1') ->
  landw_one_iteration s2 = (o2, s2') ->
  o1 = o2 /\ same_run s1' s2'
  /\ input_matrix s1' = a
  /\ output_variable s1' = [c]
  /\ output_variable s2' = repeat c (np.shape0 a).
Proof.
  intros Hn Ha Hy1 Hy2 Hs.
  pose proof Hs as (E1 & E2 & E3 & E4 & E5 & E6 & E7).
  rewrite !iteration_general. rewrite <- E1, <- E4, Ha, Hy1, Hy2.
  rewrite <- gradient_update_scalar_observation by exact Hn.
  destruct (gradient_update a [c] (landw_estimate s1)) as [x'|e].
  - rewrite <- residual_update_scalar_observation by exact Hn.
    destruct (residual_update a [c] x') as [r'|e].
    + intros H1 H2.
      destruct (risk_update_same_run _ _ _ _ _ _
                  (advanced_to_same_run x' r' s1 s2 Hs) H1 H2)
        as (Ho & Hs' & F1 & F2).
      apply risk_update_frame in H1 as ((G1 & _) & _).
      revert F1 F2 G1. unfold advanced_to; project. intros F1 F2 G1.
      refine (conj Ho (conj Hs' (conj _ (conj _ _)))); congruence.
    + intros [= <- <-] [= <- <-]. unfold same_run; project.
      repeat split; auto.
  - intros [= <- <-] [= <- <-]. repeat split; auto.
Qed.

(** X12. numpy broadcasts a length-1 observation vector: given a single
    observation [c] for a matrix of n rows, the constructor and [landw]
    raise nothing that they would not raise for the observation vector
    [(c, ..., c)] of length n, and both engines end with the same outcome,
    estimate, counter, risk trace and residual entries after iteration 0. *)
Theorem scalar_observation_is_broadcast (a : np.matrix) (c : Q)
    (f : option np.vector) (iter_num : Z) (s1 s2 s1' s2' : landweber)
    (o1 o2 : result unit) :
  np.well_shaped a = true ->
  init a [c] f = Ok s1 ->
  init a (repeat c (np.shape0 a)) f = Ok s2 ->
  landw iter_num s1 = (o1, s1') ->
  landw iter_num s2 = (o2, s2') ->
  o1 = o2
  /\ landw_estimate s1' = landw_estimate s2'
  /\ iter s1' = iter s2'
  /\ mse s1' = mse s2'
  /\ tl (residuals s1') = tl (residuals s2').
Proof.
  intros Hw I1 I2. destruct (well_shaped_rows a Hw) as [Hn _].
  assert (Hstart : input_matrix s1 = a /\ output_variable s1 = [c]
                   /\ output_variable s2 = repeat c (np.shape0 a)
                   /\ same_run s1 s2).
  { injection I1 as <-. injection I2 as <-. unfold same_run; project.
    repeat split. }
  destruct Hstart as (Ha0 & Hy0 & Hy0' & Hs0).
  assert (Hloop : forall n t1 t2 t1' t2' p1 p2,
    input_matrix t1 = a -> output_variable t1 = [c] ->
    output_variable t2 = repeat c (np.shape0 a) -> same_run t1 t2 ->
    for_range n landw_one_iteration t1 = (p1, t1') ->
    for_range n landw_one_iteration t2 = (p2, t2') ->
    p1 = p2 /\ same_run t1' t2').
  { induction n as [|n IH]; intros t1 t2 t1' t2' p1 p2 Ha Hy1 Hy2 Hs; simpl.
    - intros [= <- <-] [= <- <-]. auto.
    - unfold bind.
      destruct (landw_one_iteration t1) as [q1 u1] eqn:E1.
      destruct (landw_one_iteration t2) as [q2 u2] eqn:E2.
      destruct (iteration_scalar_observation a c t1 t2 u1 u2 q1 q2
                  Hn Ha Hy1 Hy2 Hs E1 E2) as (<- & Hs' & Ha' & Hy1' & Hy2').
      destruct q1 as [[]|e].
      + now apply IH.
      + intros [= <- <-] [= <- <-]. auto. }
  intros H1 H2. unfold landw in H1, H2.
  destruct (Hloop _ _ _ _ _ _ _ Ha0 Hy0 Hy0' Hs0 H1 H2)
    as (Ho & E1 & E2 & E3 & E4 & E5 & E6 & E7).
  auto.
Qed.

Lemma scalar_observation_is_broadcast_witness :
  fst (landw 3 scalar_observation_engine)
  = fst (landw 3 constant_observation_engine)
  /\ landw_estimate (snd (landw 3 scalar_observation_engine))
     = landw_estimate (snd (landw 3 constant_observation_engine))
  /\ iter (snd (landw 3 scalar_observation_engine))
     = iter (snd (landw 3 constant_observation_engine))
  /\ mse (snd (landw 3 scalar_observation_engine))
     = mse (snd (landw 3 constant_observation_engine))
  /\ tl (residuals (snd (landw 3 scalar_observation_engine)))
     = tl (residuals (snd (landw 3 constant_observation_engine))).
Proof.
  apply (scalar_observation_is_broadcast column_matrix 1 None 3
           scalar_observation_engine constant_observation_engine).
  - reflexivity.
  - reflexivity.
  - reflexivity.
  - apply surjective_pairing.
  - apply surjective_pairing.
Defined.

(** * Further properties of the interpolation *)

Lemma getitem_negative (v : np.vector) (i : Z) :
  (- Z.of_nat (length v) <= i < 0)%Z ->
  np.getitem v i = Ok (coord v (Z.to_nat (Z.of_nat (length v) + i))).
Proof.
  intros H. unfold np.getitem.
  replace (0 <=? i)%Z with false by (symmetry; apply Z.leb_gt; lia).
  replace ((- Z.of_nat (length v) <=? i)%Z && (i <? 0)%Z) with true
    by (symmetry; apply andb_true_iff; split;
        [apply Z.leb_le|apply Z.ltb_lt]; lia).
  simpl.
  destruct (nth_error v (Z.to_nat (Z.of_nat (length v) + i))) as [x|] eqn:E.
  - unfold coord. now rewrite (nth_error_nth _ _ _ E).
  - apply nth_error_None in E. lia.
Qed.

Lemma getitem_below (v : np.vector) (i : Z) :
  (i < - Z.of_nat (length v))%Z -> np.getitem v i = Raise IndexError.
Proof.
  intros H. unfold np.getitem.
  replace (0 <=? i)%Z with false by (symmetry; apply Z.leb_gt; lia).
  replace (- Z.of_nat (length v) <=? i)%Z with false
    by (symmetry; apply Z.leb_gt; lia).
  replace (2 ^ 63 <=? i)%Z with false by (symmetry; apply Z.leb_gt; lia).
  reflexivity.
Qed.

(** Python's index: [len + i] for a negative [i]. *)
Lemma getitem_wraps (v : np.vector) (i : Z) :
  (- Z.of_nat (length v) <= i < Z.of_nat (length v))%Z ->
  np.getitem v i
  = Ok (coord v (Z.to_nat (i mod Z.of_nat (length v)))).
Proof.
  intros H. destruct (Z_lt_le_dec i 0) as [Hneg|Hpos].
  - rewrite getitem_negative by lia. do 3 f_equal.
    rewrite <- (Z.mod_small (Z.of_nat (length v) + i) (Z.of_nat (length v)))
      by lia.
    rewrite Z.add_comm. rewrite <- (Z.mul_1_l (Z.of_nat (length v))) at 1.
    apply Z.mod_add. lia.
  - rewrite getitem_in_range by lia. now rewrite Z.mod_small by lia.
Qed.

Lemma floor_ceiling_in_domain (t : Q) (len : Z) :
  - inject_Z len <= t -> t <= inject_Z len - 1 ->
  (- len <= Qfloor t)%Z /\ (Qfloor t <= Qceiling t)%Z
  /\ (Qceiling t < len)%Z.
Proof.
  intros H0 H1.
  pose proof (Qlt_floor t) as Hf. pose proof (Qceiling_lt t) as Hc.
  pose proof (Qle_floor_ceiling t) as Hfc. rewrite <- Zle_Qle in Hfc.
  assert (A1 : inject_Z (- len - 1) < inject_Z (Qfloor t)).
  { rewrite inject_Z_plus in Hf. change (inject_Z 1) with 1 in Hf.
    unfold Z.sub. rewrite inject_Z_plus, !inject_Z_opp.
    change (inject_Z 1) with 1. lra. }
  assert (A2 : inject_Z (Qceiling t) < inject_Z len).
  { unfold Z.sub in Hc. rewrite inject_Z_plus, inject_Z_opp in Hc.
    change (inject_Z 1) with 1 in Hc. lra. }
  rewrite <- Zlt_Qlt in A1, A2. lia.
Qed.

Lemma floor_below (t : Q) (len : Z) :
  t < - inject_Z len -> (Qfloor t < - len)%Z.
Proof.
  intros H. pose proof (Qfloor_le t) as Hf.
  assert (A : inject_Z (Qfloor t) < inject_Z (- len))
    by (rewrite inject_Z_opp; lra).
  now rewrite <- Zlt_Qlt in A.
Qed.

Lemma interpolation_in_domain (trace : np.vector) (t : Q) :
  - inject_Z (Z.of_nat (length trace)) <= t ->
  t <= inject_Z (Z.of_nat (length trace)) - 1 ->
  exists lo hi,
    np.getitem trace (Qfloor t) = Ok lo
    /\ np.getitem trace (Qceiling t) = Ok hi
    /\ calculate_interpolated_residual trace t
       = Ok ((1 - (t - inject_Z (Qfloor t))) ^ 2 * lo
             + (1 - (1 - (t - inject_Z (Qfloor t))) ^ 2) * hi).
Proof.
  intros H0 H1.
  destruct (floor_ceiling_in_domain t _ H0 H1) as (Hf & Hfc & Hc).
  unfold calculate_interpolated_residual.
  rewrite (getitem_wraps trace (Qfloor t)) by lia.
  rewrite (getitem_wraps trace (Qceiling t)) by lia.
  eexists; eexists; repeat split.
Qed.

Lemma each_all_defined (g : Q -> result Q) (index : np.vector) :
  Forall (fun t => exists v, g t = Ok v) index ->
  exists vs,
    np.each g index = Ok vs
    /\ Forall2 (fun t v => g t = Ok v) index vs.
Proof.
  induction 1 as [|t rest [v Hv] _ (vs & E & F)]; simpl.
  - exists []. split; [reflexivity|constructor].
  - exists (v :: vs). rewrite Hv, E. split; [reflexivity|].
    constructor; auto.
Qed.

Lemma each_one_raises (g : Q -> result Q) (e : exn) (index : np.vector) :
  Forall (fun t => (exists v, g t = Ok v) \/ g t = Raise e) index ->
  Exists (fun t => g t = Raise e) index ->
  np.each g index = Raise e.
Proof.
  induction 1 as [|t rest Ht Hrest IH]; intros Hex; [inversion Hex|].
  simpl. destruct Ht as [[v Hv]|Hr].
  - rewrite Hv. inversion Hex as [? ? Hbad|? ? Hlater]; subst.
    + congruence.
    + now rewrite (IH Hlater).
  - now rewrite Hr.
Qed.

Lemma each_raises (g : Q -> result Q) (index : np.vector) :
  Forall (fun t => (exists v, g t = Ok v)
                   \/ g t = Raise IndexError
                   \/ g t = Raise OverflowError) index ->
  Exists (fun t => g t = Raise IndexError \/ g t = Raise OverflowError)
    index ->
  np.each g index = Raise IndexError
  \/ np.each g index = Raise OverflowError.
Proof.
  induction 1 as [|t rest Ht Hrest IH]; intros Hex; [inversion Hex|].
  simpl. destruct Ht as [[v Hv]|[Hr|Hr]].
  - rewrite Hv. inversion Hex as [? ? Hbad|? ? Hlater]; subst.
    + destruct Hbad; congruence.
    + destruct (IH Hlater) as [-> | ->]; auto.
  - rewrite Hr; auto.
  - rewrite Hr; auto.
Qed.

Lemma interpolation_outcome (trace : np.vector) (t : Q) :
  (exists v, calculate_interpolated_residual trace t = Ok v)
  \/ calculate_interpolated_residual trace t = Raise IndexError
  \/ calculate_interpolated_residual trace t = Raise OverflowError.
Proof.
  unfold calculate_interpolated_residual, rbind.
  destruct (getitem_outcome trace (Qfloor t)) as [[x ->]|[-> | ->]]; auto.
  destruct (getitem_outcome trace (Qceiling t)) as [[x' ->]|[-> | ->]];
    eauto.
Qed.

Lemma interpolation_outside_domain (trace : np.vector) (t : Q) :
  t < - inject_Z (Z.of_nat (length trace))
  \/ inject_Z (Z.of_nat (length trace)) - 1 < t ->
  calculate_interpolated_residual trace t = Raise IndexError
  \/ calculate_interpolated_residual trace t = Raise OverflowError.
Proof.
  intros H.
  destruct (interpolation_outcome trace t) as [[v E]|E]; [|exact E].
  exfalso. revert E. unfold calculate_interpolated_residual, rbind.
  destruct H as [H|H].
  - apply floor_below in H. rewrite (getitem_below _ _ H). discriminate.
  - apply ceiling_beyond in H. rewrite (getitem_beyond _ _ H).
    destruct (np.getitem trace (Qfloor t)); [|discriminate].
    destruct ((2 ^ 63 <=? Qceiling t)%Z && (Qceiling t <? 2 ^ 64)%Z);
      discriminate.
Qed.

(** Outside the domain, an index whose roundings fit a C long is an
    [IndexError]. *)
Lemma interpolation_index_error (trace : np.vector) (t : Q) :
  t < - inject_Z (Z.of_nat (length trace))
  \/ inject_Z (Z.of_nat (length trace)) - 1 < t ->
  t <= inject_Z (2 ^ 63 - 1) ->
  calculate_interpolated_residual trace t = Raise IndexError.
Proof.
  intros H Hhi.
  assert (Hc : (Qceiling t <= 2 ^ 63 - 1)%Z).
  { rewrite <- (Qceiling_Z (2 ^ 63 - 1)). now apply Qceiling_resp_le. }
  pose proof (Qle_floor_ceiling t) as Hfc. rewrite <- Zle_Qle in Hfc.
  unfold calculate_interpolated_residual, rbind.
  destruct H as [H|H].
  - apply floor_below in H. now rewrite (getitem_below _ _ H).
  - apply ceiling_beyond in H. rewrite (getitem_beyond _ _ H).
    replace (2 ^ 63 <=? Qceiling t)%Z with false
      by (symmetry; apply Z.leb_gt; lia).
    destruct (getitem_outcome trace (Qfloor t)) as [[x ->]|[-> | E]];
      try reflexivity.
    exfalso. revert E. unfold np.getitem.
    destruct ((0 <=? Qfloor t)%Z && (Qfloor t <? Z.of_nat (length trace))%Z);
      [destruct (nth_error _ _); discriminate|].
    destruct ((- Z.of_nat (length trace) <=? Qfloor t)%Z
              && (Qfloor t <? 0)%Z);
      [destruct (nth_error _ _); discriminate|].
    replace (2 ^ 63 <=? Qfloor t)%Z with false
      by (symmetry; apply Z.leb_gt; lia).
    discriminate.
Qed.

(** X13. The interpolation returns a value exactly for the indices [t] with
    [-len <= t <= len - 1].  For every other index it raises [IndexError]
    or [OverflowError] and nothing else: [IndexError] when
    [-2^63 <= t <= 2^63 - 1], [OverflowError] when [2^63 <= t < 2^64] (the
    trace having fewer than [2^63] entries). *)
Theorem interpolation_domain (trace : np.vector) (t : Q) :
  let len := inject_Z (Z.of_nat (length trace)) in
  ((exists v, calculate_interpolated_residual trace t = Ok v)
   <-> - len <= t /\ t <= len - 1)
  /\ ((exists v, calculate_interpolated_residual trace t = Ok v)
      \/ calculate_interpolated_residual trace t = Raise IndexError
      \/ calculate_interpolated_residual trace t = Raise OverflowError)
  /\ (t < - len \/ len - 1 < t ->
      inject_Z (- 2 ^ 63) <= t -> t <= inject_Z (2 ^ 63 - 1) ->
      calculate_interpolated_residual trace t = Raise IndexError)
  /\ ((Z.of_nat (length trace) < 2 ^ 63)%Z ->
      inject_Z (2 ^ 63) <= t -> t < inject_Z (2 ^ 64) ->
      calculate_interpolated_residual trace t = Raise OverflowError).
Proof.
  intros len. split; [|split; [|split]].
  - split.
    + intros [v E].
      destruct (Qlt_le_dec t (- len)) as [H|H0].
      * destruct (interpolation_outside_domain trace t (or_introl H));
          congruence.
      * destruct (Qlt_le_dec (len - 1) t) as [H|H1]; [|auto].
        destruct (interpolation_outside_domain trace t (or_intror H));
          congruence.
    + intros [H0 H1].
      destruct (interpolation_in_domain trace t H0 H1)
        as (lo & hi & _ & _ & E). eauto.
  - apply interpolation_outcome.
  - intros H _. now apply interpolation_index_error.
  - intros Hlen H1 H2.
    assert (Hf1 : (2 ^ 63 <= Qfloor t)%Z).
    { rewrite <- (Qfloor_Z (2 ^ 63)). now apply Qfloor_resp_le. }
    assert (Hf2 : (Qfloor t < 2 ^ 64)%Z).
    { pose proof (Qfloor_le t). rewrite Zlt_Qlt. lra. }
    rewrite interpolation_above; auto.
    + replace ((2 ^ 63 <=? Qfloor t)%Z && (Qfloor t <? 2 ^ 64)%Z) with true;
        [reflexivity|].
      symmetry. apply andb_true_iff. split;
        [apply Z.leb_le|apply Z.ltb_lt]; lia.
    + assert (A : inject_Z (Z.of_nat (length trace)) < inject_Z (2 ^ 63))
        by (rewrite <- Zlt_Qlt; exact Hlen).
      lra.
Qed.

Lemma interpolation_domain_witness :
  (exists v, calculate_interpolated_residual [4; 2; 1] (- (5 # 2)) = Ok v)
  /\ calculate_interpolated_residual [4; 2; 1] 7 = Raise IndexError
  /\ calculate_interpolated_residual [4; 2; 1] (inject_Z (10 ^ 19))
     = Raise OverflowError.
Proof.
  split; [|split].
  - apply (interpolation_domain [4; 2; 1] (- (5 # 2))).
    split; vm_compute; discriminate.
  - apply (interpolation_domain [4; 2; 1] 7).
    + right. vm_compute; reflexivity.
    + vm_compute; discriminate.
    + vm_compute; discriminate.
  - apply (interpolation_domain [4; 2; 1] (inject_Z (10 ^ 19))).
    + vm_compute; reflexivity.
    + vm_compute; discriminate.
    + vm_compute; reflexivity.
Defined.

(** X14. A negative index does not fail, it wraps around as Python indexing
    does: for [-len <= t < 0] the blend is taken between the entries
    [len + floor t] and [(len + ceil t) mod len]; in particular for
    [-1 < t < 0] between the last entry and the first. *)
Theorem interpolation_wraps_negative_indices (trace : np.vector) (t : Q) :
  - inject_Z (Z.of_nat (length trace)) <= t ->
  t < 0 ->
  let len := Z.of_nat (length trace) in
  let alpha := t - inject_Z (Qfloor t) in
  calculate_interpolated_residual trace t
  = Ok ((1 - alpha) ^ 2 * coord trace (Z.to_nat (len + Qfloor t))
        + (1 - (1 - alpha) ^ 2)
          * coord trace (Z.to_nat ((len + Qceiling t) mod len)))
  /\ (-1 < t ->
      calculate_interpolated_residual trace t
      = Ok ((1 - alpha) ^ 2 * last trace 0
            + (1 - (1 - alpha) ^ 2) * hd 0 trace)).
Proof.
  intros H0 Hneg len alpha.
  assert (Hf : (Qfloor t < 0)%Z).
  { pose proof (Qfloor_le t) as Hf.
    assert (A : inject_Z (Qfloor t) < inject_Z 0)
      by (change (inject_Z 0) with 0; lra).
    now rewrite <- Zlt_Qlt in A. }
  assert (Hc : (Qceiling t <= 0)%Z).
  { change 0%Z with (Qceiling (inject_Z 0)) at 1
      || rewrite <- (Qceiling_Z 0).
    apply Qceiling_resp_le. change (inject_Z 0) with 0. lra. }
  assert (Hlo : (- len <= Qfloor t)%Z).
  { rewrite <- (Qfloor_Z (- len)). apply Qfloor_resp_le.
    rewrite inject_Z_opp. exact H0. }
  pose proof (Qle_floor_ceiling t) as Hfc. rewrite <- Zle_Qle in Hfc.
  assert (E : calculate_interpolated_residual trace t
              = Ok ((1 - alpha) ^ 2 * coord trace (Z.to_nat (len + Qfloor t))
                    + (1 - (1 - alpha) ^ 2)
                      * coord trace
                          (Z.to_nat ((len + Qceiling t) mod len)))).
  { unfold calculate_interpolated_residual.
    rewrite (getitem_negative trace (Qfloor t)) by (fold len; lia).
    rewrite (getitem_wraps trace (Qceiling t)) by (fold len; lia).
    fold len. simpl rbind. do 4 f_equal.
    rewrite Z.add_comm. rewrite <- (Z.mul_1_l len) at 2.
    rewrite Z.mod_add by lia. reflexivity. }
  split; [exact E|].
  intros H1. rewrite E.
  assert (Ef : Qfloor t = (-1)%Z).
  { pose proof (Qlt_floor t) as Hf'.
    assert (A : inject_Z (-1) < inject_Z (Qfloor t + 1))
      by (change (inject_Z (-1)) with (- (1)); lra).
    rewrite <- Zlt_Qlt in A. lia. }
  assert (Ec : Qceiling t = 0%Z).
  { pose proof (Qle_ceiling t) as Hc'.
    assert (A : inject_Z (-1) < inject_Z (Qceiling t))
      by (change (inject_Z (-1)) with (- (1)); lra).
    rewrite <- Zlt_Qlt in A. lia. }
  rewrite Ef, Ec, Z.add_0_r, Z.mod_same by lia.
  assert (Hlen : (0 < length trace)%nat) by lia.
  do 3 f_equal.
  - f_equal. unfold coord.
    destruct trace as [|b trace] using rev_ind; [simpl in Hlen; lia|].
    rewrite last_last. unfold len. rewrite length_app. simpl length.
    replace (Z.to_nat (Z.of_nat (length trace + 1) + -1)) with (length trace)
      by lia.
    rewrite app_nth2 by lia. now rewrite Nat.sub_diag.
  - f_equal. unfold coord. destruct trace; reflexivity.
Qed.

Lemma interpolation_wraps_negative_indices_witness :
  let t := - (1 # 2) in
  let len := Z.of_nat (length [4; 2; 1]) in
  let alpha := t - inject_Z (Qfloor t) in
  calculate_interpolated_residual [4; 2; 1] t
  = Ok ((1 - alpha) ^ 2 * coord [4; 2; 1] (Z.to_nat (len + Qfloor t))
        + (1 - (1 - alpha) ^ 2)
          * coord [4; 2; 1] (Z.to_nat ((len + Qceiling t) mod len)))
  /\ (-1 < t ->
      calculate_interpolated_residual [4; 2; 1] t
      = Ok ((1 - alpha) ^ 2 * last [4; 2; 1] 0
            + (1 - (1 - alpha) ^ 2) * hd 0 [4; 2; 1])).
Proof.
  apply (interpolation_wraps_negative_indices [4; 2; 1] (- (1 # 2))).
  - vm_compute; discriminate.
  - vm_compute; reflexivity.
Defined.


(** X17. The vectorized function of the script, on an array of indices: it
    refuses an empty array with [ValueError]; on a non-empty array whose
    indices all lie in [-len, len - 1] it returns one interpolated value
    per index, in order; and as soon as one index lies outside, the whole
    call raises [IndexError] or [OverflowError], and [IndexError] when
    every index lies between [-2^63] and [2^63 - 1]. *)
Theorem vectorized_interpolation (trace : np.vector) (index : np.vector) :
  let len := inject_Z (Z.of_nat (length trace)) in
  calculate_interpolated_residual_vectorized trace [] = Raise ValueError
  /\ (index <> [] ->
      Forall (fun t => - len <= t /\ t <= len - 1) index ->
      exists vs,
        calculate_interpolated_residual_vectorized trace index = Ok vs
        /\ Forall2 (fun t v => calculate_interpolated_residual trace t = Ok v)
             index vs)
  /\ (Exists (fun t => t < - len \/ len - 1 < t) index ->
      (calculate_interpolated_residual_vectorized trace index
       = Raise IndexError
       \/ calculate_interpolated_residual_vectorized trace index
          = Raise OverflowError)
      /\ (Forall (fun t => inject_Z (- 2 ^ 63) <= t
                            /\ t <= inject_Z (2 ^ 63 - 1)) index ->
          calculate_interpolated_residual_vectorized trace index
          = Raise IndexError)).
Proof.
  intros len. split; [reflexivity|]. split.
  - intros Hne Hall.
    unfold calculate_interpolated_residual_vectorized, np.vectorize.
    destruct index as [|t rest]; [congruence|].
    apply each_all_defined.
    eapply Forall_impl; [|exact Hall]. intros u [Hu0 Hu1].
    destruct (interpolation_in_domain trace u Hu0 Hu1)
      as (lo & hi & _ & _ & E). eauto.
  - intros Hex.
    unfold calculate_interpolated_residual_vectorized, np.vectorize.
    destruct index as [|t rest]; [inversion Hex|]. split.
    + apply each_raises.
      * apply Forall_forall. intros u _. apply interpolation_outcome.
      * eapply Exists_impl; [|exact Hex]. intros u Hu.
        now apply interpolation_outside_domain.
    + intros Hsmall. apply each_one_raises.
      * apply Forall_forall. intros u Hu.
        rewrite Forall_forall in Hsmall.
        destruct (Hsmall u Hu) as [_ Hs].
        destruct (Qlt_le_dec u (- len)) as [H|H0].
        { right. apply interpolation_index_error; auto. }
        destruct (Qlt_le_dec (len - 1) u) as [H|H1].
        { right. apply interpolation_index_error; auto. }
        left. destruct (interpolation_in_domain trace u H0 H1)
          as (lo & hi & _ & _ & E). eauto.
      * apply Exists_exists. apply Exists_exists in Hex as (u & Hu & Hout).
        exists u. split; [exact Hu|].
        rewrite Forall_forall in Hsmall.
        apply interpolation_index_error; [auto|apply (Hsmall u Hu)].
Qed.

Lemma vectorized_interpolation_witness :
  (exists vs,
      calculate_interpolated_residual_vectorized [4; 2; 1] [0; 1 # 2; 2]
      = Ok vs
      /\ Forall2 (fun t v =>
                    calculate_interpolated_residual [4; 2; 1] t = Ok v)
           [0; 1 # 2; 2] vs)
  /\ calculate_interpolated_residual_vectorized [4; 2; 1] [0; 7; 1]
     = Raise IndexError.
Proof.
  split.
  - apply (vectorized_interpolation [4; 2; 1] [0; 1 # 2; 2]).
    + discriminate.
    + repeat constructor; vm_compute; discriminate.
  - apply (vectorized_interpolation [4; 2; 1] [0; 7; 1]).
    + apply Exists_cons_tl, Exists_cons_hd. right. vm_compute; reflexivity.
    + repeat (constructor; [split; vm_compute; discriminate|]).
      constructor.
Defined.
